(** * Verification of the bitchat mesh node kernel (Go sources)

    Shallow embedding of the parts of the Go code base that the
    specification talks about: the binary codec ([internal/protocol/binary.go]),
    message padding, the retry scheduler ([internal/service]), the Linux
    fragmenter, the mesh router, the ingress pipeline and [SendMessage] of
    [BluetoothMeshService], and the peer key registration of
    [EncryptionService].

    Conventions.
    - A Go [byte] is a [Z] in [0, 256); a conversion [byte(n)] is [n mod 256].
    - A Go [[]byte] is a [list Z].  Go's nil and empty slices both denote the
      empty byte sequence (the code and its tests compare them with
      [bytes.Equal]), so both are [[]].
    - Durations and instants are [Z] nanoseconds. *)

From Stdlib Require Import ZArith Lia.
From stdpp Require Import base list gmap strings.

Open Scope Z_scope.

(* ------------------------------------------------------------------ *)
(** ** Bytes *)

Definition byte_ok (b : Z) : Prop := 0 <= b < 256.

Definition bytes_ok (l : list Z) : Prop := Forall byte_ok l.

(** Go's [byte(n)] conversion. *)
Definition to_byte (n : Z) : Z := n mod 256.

(** Big-endian encoding of [v] on [n] bytes, as [binary.Write] with
    [binary.BigEndian] does for [uint32] ([n = 4]) and [uint64] ([n = 8]). *)
Fixpoint be_bytes (n : nat) (v : Z) : list Z :=
  match n with
  | O => []
  | S k => be_bytes k (v / 256) ++ [v mod 256]
  end.

(** Big-endian decoding, as [binary.Read] with [binary.BigEndian]. *)
Definition be_value (l : list Z) : Z :=
  fold_left (fun acc b => acc * 256 + b) l 0.

(* ------------------------------------------------------------------ *)
(** ** Packets ([internal/protocol/types.go]) *)

(** [MessageType] constants. *)
Definition MessageTypeAnnounce : Z := 1.
Definition MessageTypeKeyExchange : Z := 2.
Definition MessageTypeLeave : Z := 3.
Definition MessageTypeMessage : Z := 4.
Definition MessageTypeFragmentStart : Z := 5.
Definition MessageTypeFragmentContinue : Z := 6.
Definition MessageTypeFragmentEnd : Z := 7.
Definition MessageTypeDeliveryAck : Z := 10.
Definition MessageTypeReadReceipt : Z := 12.

Definition BroadcastRecipient : list Z := repeat 255 8.

(** [BitchatPacket]; the Go field [Type] is [MsgType] here, [Type]
    being a keyword. *)
Record BitchatPacket := mkPacket {
  Version : Z;
  MsgType : Z;
  SenderID : list Z;
  RecipientID : list Z;
  Timestamp : Z;
  Payload : list Z;
  Signature : list Z;
  TTL : Z;
  ID : string;
  Nonce : list Z
}.

(** A packet the Go types can hold: every byte field in range, the
    timestamp a [uint64]. *)
Definition packet_ok (p : BitchatPacket) : Prop :=
  byte_ok (Version p) /\ byte_ok (MsgType p) /\ byte_ok (TTL p) /\
  bytes_ok (SenderID p) /\ bytes_ok (RecipientID p) /\
  bytes_ok (Payload p) /\ bytes_ok (Signature p) /\
  0 <= Timestamp p < 2 ^ 64.

Definition set_TTL (p : BitchatPacket) (t : Z) : BitchatPacket :=
  mkPacket (Version p) (MsgType p) (SenderID p) (RecipientID p)
    (Timestamp p) (Payload p) (Signature p) t (ID p) (Nonce p).

(* ------------------------------------------------------------------ *)
(** ** Codec ([internal/protocol/binary.go]) *)

(** [Encode].  Writes to a [bytes.Buffer] never fail, so the error results
    of the Go function are never produced.  The nil branches for
    [RecipientID] and [Signature] write the single byte [0], which is what
    the length-prefixed branch writes for an empty slice. *)
Definition Encode (p : BitchatPacket) : list Z :=
  [Version p; MsgType p] ++
  [to_byte (Z.of_nat (length (SenderID p)))] ++ SenderID p ++
  [to_byte (Z.of_nat (length (RecipientID p)))] ++ RecipientID p ++
  be_bytes 8 (Timestamp p) ++
  be_bytes 4 (Z.of_nat (length (Payload p)) mod 2 ^ 32) ++ Payload p ++
  [to_byte (Z.of_nat (length (Signature p)))] ++ Signature p ++
  [TTL p].

(** Reads from a [bytes.Buffer]: the buffer is the list of unread bytes. *)
Definition ReadByte (buf : list Z) : option (Z * list Z) :=
  match buf with
  | b :: rest => Some (b, rest)
  | [] => None
  end.

(** [io.ReadFull] of [n] bytes: fails when fewer remain. *)
Definition ReadFull (n : nat) (buf : list Z) : option (list Z * list Z) :=
  if decide (n <= length buf)%nat then Some (take n buf, drop n buf) else None.

(** [binary.Read] of a big-endian integer of [n] bytes. *)
Definition ReadBE (n : nat) (buf : list Z) : option (Z * list Z) :=
  '(bs, rest) ← ReadFull n buf; Some (be_value bs, rest).

(** The [if len > 0 { make; io.ReadFull }] pattern of [Decode]: a zero
    length leaves the field nil. *)
Definition ReadField (len : Z) (buf : list Z) : option (list Z * list Z) :=
  if decide (0 < len) then ReadFull (Z.to_nat len) buf else Some ([], buf).

(** [Decode]. *)
Definition Decode (data : list Z) : option BitchatPacket :=
  if decide (length data < 13)%nat then None else
  let buf := data in
  '(version, buf) ← ReadByte buf;
  '(msgType, buf) ← ReadByte buf;
  '(senderIDLen, buf) ← ReadByte buf;
  '(sender, buf) ← ReadField senderIDLen buf;
  '(recipientIDLen, buf) ← ReadByte buf;
  '(recipient, buf) ← ReadField recipientIDLen buf;
  '(timestamp, buf) ← ReadBE 8 buf;
  '(payloadLen, buf) ← ReadBE 4 buf;
  '(payload, buf) ← ReadField payloadLen buf;
  '(signatureLen, buf) ← ReadByte buf;
  '(signature, buf) ← ReadField signatureLen buf;
  '(ttl, _) ← ReadByte buf;
  Some (mkPacket version msgType sender recipient timestamp payload
          signature ttl "" []).

(* ------------------------------------------------------------------ *)
(** ** Padding ([MessagePadding] in binary.go) *)

Definition blockSizes : list Z := [256; 512; 1024; 2048].

(** [Pad]: filler byte at index [i] is [byte(i % 256)], the last byte the
    padding length. *)
Definition Pad (data : list Z) (targetSize : Z) : list Z :=
  let n := Z.of_nat (length data) in
  if decide (targetSize <= n) then data else
  let paddingNeeded := targetSize - n in
  if decide (255 < paddingNeeded) then data else
  data ++ map (fun i => to_byte i) (seqZ n (paddingNeeded - 1))
       ++ [to_byte paddingNeeded].

(** Go's bounds-checked indexing [l[i]] and re-slicing [l[:j]]; [None] is
    the run-time panic the Go code would raise out of range. *)
Definition go_index (l : list Z) (i : Z) : option Z :=
  if decide (0 <= i < Z.of_nat (length l)) then l !! Z.to_nat i else None.

Definition go_slice_to (l : list Z) (j : Z) : option (list Z) :=
  if decide (0 <= j <= Z.of_nat (length l)) then Some (take (Z.to_nat j) l)
  else None.

(** [Unpad]; [None] would be a panic. *)
Definition Unpad (data : list Z) : option (list Z) :=
  let n := Z.of_nat (length data) in
  if decide (n = 0) then Some data else
  paddingLength ← go_index data (n - 1);
  if decide (paddingLength <= 0 \/ paddingLength > n) then Some data
  else go_slice_to data (n - paddingLength).

(** [OptimalBlockSize]. *)
Definition OptimalBlockSize (dataSize : Z) : Z :=
  let totalSize := dataSize + 16 in
  let fix go (bs : list Z) :=
    match bs with
    | [] => dataSize
    | b :: rest => if decide (totalSize <= b) then b else go rest
    end in
  go blockSizes.

(* ------------------------------------------------------------------ *)
(** ** Retry scheduler ([RetryService] in compression_service.go) *)

(** [RetryConfig]; durations in nanoseconds.  The [float64] field
    [BackoffFactor] is the exact rational
    [BackoffFactorNum / BackoffFactorDen]; the rounding of the
    floating-point product is not modelled, its conversion back to a
    [time.Duration] truncates. *)
Record RetryConfig := mkRetryConfig {
  MaxRetries : Z;
  InitialBackoff : Z;
  BackoffFactorNum : Z;
  BackoffFactorDen : Z;
  MaxBackoff : Z;
  MaxRetryTime : Z
}.

Definition Second : Z := 1000000000.
Definition Minute : Z := 60 * Second.

(** [DefaultRetryConfig]: 5 retries, 5 s, factor 1.5, 2 min, 30 min. *)
Definition DefaultRetryConfig : RetryConfig :=
  mkRetryConfig 5 (5 * Second) 3 2 (2 * Minute) (30 * Minute).

(** [RetryItem].  The callback [OnComplete] is named by a token; [None]
    is a nil callback. *)
Record RetryItem := mkRetryItem {
  Packet : BitchatPacket;
  TargetPeerID : string;
  Attempts : Z;
  FirstAttempt : Z;
  NextAttempt : Z;
  OnComplete : option nat
}.

(** What the service does to the outside world: a call of
    [sendPacketFunc], or a call of a completion callback
    [OnComplete(messageID, success, info)] with [info.Attempts]. *)
Inductive RetryEvent :=
  | RetrySend (p : BitchatPacket) (target : string)
  | Completed (cb : nat) (messageID : string) (success : bool) (attempts : Z).

(** The map [retryItems]. *)
Abbreviation RetryItems := (gmap string RetryItem).

Section RetryService.
Variable cfg : RetryConfig.

(** [AddRetryPacket] at instant [now]: idempotent on the packet id.  The
    expiry goroutine it starts is the [RetryTimerFired] operation below. *)
Definition AddRetryPacket (now : Z) (packet : BitchatPacket) (targetPeerID : string)
    (onComplete : option nat) (items : RetryItems) : RetryItems :=
  let messageID := ID packet in
  match items !! messageID with
  | Some _ => items
  | None =>
      <[messageID := mkRetryItem packet targetPeerID 1 now
                       (now + InitialBackoff cfg) onComplete]> items
  end.

Definition callback_event (messageID : string) (item : RetryItem) (success : bool)
    : list RetryEvent :=
  match OnComplete item with
  | Some cb => [Completed cb messageID success (Attempts item)]
  | None => []
  end.

(** [MarkDelivered]. *)
Definition MarkDelivered (messageID : string) (items : RetryItems)
    : RetryItems * list RetryEvent :=
  match items !! messageID with
  | Some item => (delete messageID items, callback_event messageID item true)
  | None => (items, [])
  end.

(** [handleFailedDelivery]. *)
Definition handleFailedDelivery (messageID : string) (items : RetryItems)
    : RetryItems * list RetryEvent :=
  match items !! messageID with
  | Some item => (delete messageID items, callback_event messageID item false)
  | None => (items, [])
  end.

(** The backoff [retryMessage] computes once [Attempts] is [attempts]:
    [min(MaxBackoff, InitialBackoff * (attempts - 1) * BackoffFactor)]. *)
Definition retry_backoff (attempts : Z) : Z :=
  let backoff := InitialBackoff cfg * (attempts - 1) * BackoffFactorNum cfg
                 / BackoffFactorDen cfg in
  if decide (backoff > MaxBackoff cfg) then MaxBackoff cfg else backoff.

(** [retryMessage] on the item stored under [messageID], at [now]. *)
Definition retryMessage (now : Z) (messageID : string) (items : RetryItems)
    : RetryItems * list RetryEvent :=
  match items !! messageID with
  | Some item =>
      let attempts := Attempts item + 1 in
      let item' := mkRetryItem (Packet item) (TargetPeerID item) attempts
                     (FirstAttempt item) (now + retry_backoff attempts)
                     (OnComplete item) in
      (<[messageID := item']> items, [RetrySend (Packet item) (TargetPeerID item)])
  | None => (items, [])
  end.

(** Runs [f] on each id in turn, collecting the events. *)
Fixpoint for_each_id (f : string -> RetryItems -> RetryItems * list RetryEvent)
    (ids : list string) (items : RetryItems) : RetryItems * list RetryEvent :=
  match ids with
  | [] => (items, [])
  | id :: rest =>
      let '(items1, ev1) := f id items in
      let '(items2, ev2) := for_each_id f rest items1 in
      (items2, ev1 ++ ev2)
  end.

(** [processRetries] at instant [now]: collect the due items
    ([now.After(NextAttempt)]), retry those below [MaxRetries], then fail
    the others.  Go's map iteration order is the order of [map_to_list]. *)
Definition processRetries (now : Z) (items : RetryItems)
    : RetryItems * list RetryEvent :=
  let due := filter (fun kv => NextAttempt kv.2 < now) (map_to_list items) in
  let itemsToRetry := (filter (fun kv => Attempts kv.2 < MaxRetries cfg) due).*1 in
  let itemsToRemove := (filter (fun kv => MaxRetries cfg <= Attempts kv.2) due).*1 in
  let '(items1, ev1) := for_each_id (retryMessage now) itemsToRetry items in
  let '(items2, ev2) := for_each_id handleFailedDelivery itemsToRemove items1 in
  (items2, ev1 ++ ev2).

(** [ClearRetries]. *)
Definition ClearRetries (items : RetryItems) : RetryItems := ∅.

(** The operations a run of the service is made of.  [RetryTimerFired id]
    is the expiry goroutine of [AddRetryPacket] reaching its
    [handleFailedDelivery(id)] after [MaxRetryTime]. *)
Inductive RetryOp :=
  | OpAdd (now : Z) (packet : BitchatPacket) (target : string) (cb : option nat)
  | OpMarkDelivered (messageID : string)
  | OpProcessRetries (now : Z)
  | RetryTimerFired (messageID : string)
  | OpClearRetries.

Definition retry_step (op : RetryOp) (items : RetryItems)
    : RetryItems * list RetryEvent :=
  match op with
  | OpAdd now p t cb => (AddRetryPacket now p t cb items, [])
  | OpMarkDelivered id => MarkDelivered id items
  | OpProcessRetries now => processRetries now items
  | RetryTimerFired id => handleFailedDelivery id items
  | OpClearRetries => (ClearRetries items, [])
  end.

Fixpoint retry_run (ops : list RetryOp) (items : RetryItems)
    : RetryItems * list RetryEvent :=
  match ops with
  | [] => (items, [])
  | op :: rest =>
      let '(items1, ev1) := retry_step op items in
      let '(items2, ev2) := retry_run rest items1 in
      (items2, ev1 ++ ev2)
  end.

(** The item [retryMessage] stores in place of [item]. *)
Definition retried (now : Z) (item : RetryItem) : RetryItem :=
  mkRetryItem (Packet item) (TargetPeerID item) (Attempts item + 1)
    (FirstAttempt item) (now + retry_backoff (Attempts item + 1))
    (OnComplete item).

End RetryService.

(** The backoff in the words of the specification:
    [min(MaxBackoff, InitialBackoff * attempts * BackoffFactor)]. *)
Definition spec_backoff (cfg : RetryConfig) (attempts : Z) : Z :=
  Z.min (MaxBackoff cfg)
    (InitialBackoff cfg * attempts * BackoffFactorNum cfg / BackoffFactorDen cfg).

(** Accounting of the callback named [c]: the calls of it in a list of
    events, the pending items holding it, and the operations adding an
    item with it. *)
Definition completes_with (c : nat) (e : RetryEvent) : bool :=
  match e with
  | Completed c' _ _ _ => Nat.eqb c' c
  | RetrySend _ _ => false
  end.

Definition callback_count (c : nat) (evs : list RetryEvent) : nat :=
  length (filter (fun e => completes_with c e = true) evs).

Definition owners (c : nat) (items : RetryItems) : nat :=
  length (filter (fun kv => OnComplete kv.2 = Some c) (map_to_list items)).

Definition adds_callback (c : nat) (op : RetryOp) : bool :=
  match op with
  | OpAdd _ _ _ (Some c') => Nat.eqb c' c
  | _ => false
  end.

Definition adds_with (c : nat) (ops : list RetryOp) : nat :=
  length (filter (fun op => adds_callback c op = true) ops).


(** A step that adds no item: calls of [c] plus the items still holding
    [c] never exceed the items holding [c] before. *)
Definition no_new_owner (c : nat) (f : RetryItems -> RetryItems * list RetryEvent)
    : Prop :=
  forall m, (callback_count c (f m).2 + owners c (f m).1 <= owners c m)%nat.

(* ------------------------------------------------------------------ *)
(** ** Bluetooth mesh service (platform_provider_darwin.go) *)

(** Go's [string(b)] and [[]byte(s)] on byte slices and strings. *)
Definition string_of_bytes (l : list Z) : string :=
  fold_right (fun b acc => String (Ascii.ascii_of_N (Z.to_N b)) acc) EmptyString l.

Definition bytes_of_string (s : string) : list Z :=
  map (fun a => Z.of_N (Ascii.N_of_ascii a)) (String.list_ascii_of_string s).

(** [DeliveryStatus] values. *)
Definition DeliveryStatusDelivered : Z := 2.
Definition DeliveryStatusRead : Z := 3.

Definition DefaultMessageCacheTTL : Z := 5 * Minute.
Definition DefaultMessageCacheSize : nat := 1000.
Definition BatteryModeNormal : Z := 0.
Definition BatteryModeLow : Z := 1.
Definition BatteryModeUltraLow : Z := 2.

(** [Peer], with the fields the service reads. *)
Record Peer := mkPeer {
  PeerID : string;
  Name : string
}.

(** [protocol.BitchatMessage]; the fields carry a [msg_] prefix since
    [ID] and [Timestamp] already name packet fields. *)
Record BitchatMessage := mkMessage {
  msg_ID : string;
  msg_Sender : string;
  msg_Content : string;
  msg_Timestamp : Z;
  msg_IsRelay : bool;
  msg_IsPrivate : bool;
  msg_RecipientNickname : string;
  msg_SenderPeerID : string;
  msg_Channel : string;
  msg_EncryptedContent : list Z;
  msg_IsEncrypted : bool
}.

(** Calls of the [MeshDelegate]. *)
Inductive DelegateCall :=
  | OnPeerDiscovered (peerID name : string)
  | OnPeerLost (peerID : string)
  | OnMessageReceived (message : BitchatMessage)
  | OnMessageDeliveryChanged (messageID : string) (status : Z) (recipient : string)
      (timestamp : Z).

(** [CachedMessage] ([DeliveredTo] starts empty and is not read here).
    Go's [Packet] field is a [*BitchatPacket] shared with the caller;
    [cm_Packet] holds the packet's value at caching time, so it stands for
    the pointer only while nobody mutates the packet afterwards.  Nothing
    below reads [cm_Packet]. *)
Record CachedMessage := mkCached {
  cm_Packet : BitchatPacket;
  cm_ReceivedAt : Z;
  cm_ExpiresAt : Z;
  cm_OriginalSender : string
}.

(** The state of a [BluetoothMeshService].  [seenMessages] is the
    [ExpiringSet]'s map from item to expiry instant; [outgoingMessages] is
    what has been sent on the channel, oldest first; [delegateCalls] the
    delegate calls, oldest first.  [idCalls] counts the calls of
    [GenerateMessageID] so far (see below). *)
Record MeshState := mkMesh {
  deviceID : list Z;
  peers : gmap string Peer;
  messageCache : gmap string CachedMessage;
  seenMessages : gmap string Z;
  batteryMode : Z;
  outgoingMessages : list BitchatPacket;
  delegateCalls : list DelegateCall;
  idCalls : nat
}.

Definition set_seen (s : MeshState) (seen : gmap string Z) : MeshState :=
  mkMesh (deviceID s) (peers s) (messageCache s) seen (batteryMode s)
    (outgoingMessages s) (delegateCalls s) (idCalls s).

Definition set_cache (s : MeshState) (cache : gmap string CachedMessage) : MeshState :=
  mkMesh (deviceID s) (peers s) cache (seenMessages s) (batteryMode s)
    (outgoingMessages s) (delegateCalls s) (idCalls s).

Definition send_outgoing (s : MeshState) (p : BitchatPacket) : MeshState :=
  mkMesh (deviceID s) (peers s) (messageCache s) (seenMessages s) (batteryMode s)
    (outgoingMessages s ++ [p]) (delegateCalls s) (idCalls s).

Definition notify (s : MeshState) (call : DelegateCall) : MeshState :=
  mkMesh (deviceID s) (peers s) (messageCache s) (seenMessages s) (batteryMode s)
    (outgoingMessages s) (delegateCalls s ++ [call]) (idCalls s).

(** [ExpiringSet.Contains] and [ExpiringSet.Add] at instant [now]. *)
Definition ExpiringSet_Contains (now : Z) (item : string) (items : gmap string Z) : bool :=
  match items !! item with
  | Some expiry => bool_decide (now < expiry)
  | None => false
  end.

Definition ExpiringSet_Add (ttl now : Z) (item : string) (items : gmap string Z)
    : gmap string Z :=
  match items !! item with
  | Some expiry => if decide (now < expiry) then items else <[item := now + ttl]> items
  | None => <[item := now + ttl]> items
  end.

(** The id of the oldest cached message: the first in iteration order
    whose [ReceivedAt] is before all the ones met before it. *)
Definition oldest_cached (cache : gmap string CachedMessage) : string :=
  match foldl (fun acc kv =>
                 match acc with
                 | None => Some (kv.1, cm_ReceivedAt kv.2)
                 | Some (_, t) =>
                     if decide (cm_ReceivedAt kv.2 < t)
                     then Some (kv.1, cm_ReceivedAt kv.2) else acc
                 end) None (map_to_list cache) with
  | Some (id, _) => id
  | None => ""
  end.

Section MeshService.
(** The encryption service's calls used here, with [None] for an error. *)
Variable Decrypt : list Z -> list Z -> option (list Z).
Variable Verify : list Z -> list Z -> list Z -> option bool.
Variable Sign : list Z -> option (list Z).
Variable Encrypt : list Z -> list Z -> option (list Z).
(** The handlers of announce and key-exchange packets, not detailed here. *)
Variable handleAnnounce : BitchatPacket -> MeshState -> MeshState.
Variable handleKeyExchange : BitchatPacket -> MeshState -> MeshState.
(** [utils.GenerateMessageID] does not read its argument: it hashes the
    clock ([time.Now().String()]) and 8 random bytes.  [entropy n] is the
    hex digest it returns at its [n]-th call. *)
Variable entropy : nat -> string.

Definition GenerateMessageID (packet : BitchatPacket) (s : MeshState)
    : string * MeshState :=
  (entropy (idCalls s),
   mkMesh (deviceID s) (peers s) (messageCache s) (seenMessages s) (batteryMode s)
     (outgoingMessages s) (delegateCalls s) (S (idCalls s))).

(** [addToMessageCache] at instant [now]. *)
Definition addToMessageCache (now : Z) (messageID : string) (packet : BitchatPacket)
    (originalSender : string) (s : MeshState) : MeshState :=
  let cache := messageCache s in
  match cache !! messageID with
  | Some _ => s
  | None =>
      let cache1 :=
        if decide (DefaultMessageCacheSize <= size cache)%nat then
          let oldestID := oldest_cached cache in
          if decide (oldestID <> "") then delete oldestID cache else cache
        else cache in
      let ttl :=
        if decide (batteryMode s = BatteryModeLow) then DefaultMessageCacheTTL / 2
        else if decide (batteryMode s = BatteryModeUltraLow) then DefaultMessageCacheTTL / 4
        else DefaultMessageCacheTTL in
      set_cache s (<[messageID := mkCached packet now (now + ttl) originalSender]> cache1)
  end.

(** [isPacketForUs]: broadcast, or addressed to [deviceID]. *)
Definition isPacketForUs (packet : BitchatPacket) (s : MeshState) : bool :=
  bool_decide (RecipientID packet = BroadcastRecipient) ||
  bool_decide (RecipientID packet = deviceID s).

(** [sendDeliveryAck] at instant [now] (nanoseconds; the packet carries
    [UnixMilli]). *)
Definition sendDeliveryAck (now : Z) (messageID recipientID : string) (s : MeshState)
    : MeshState :=
  let payload := bytes_of_string messageID in
  match Sign payload with
  | None => s
  | Some signature =>
      send_outgoing s
        (mkPacket 1 MessageTypeDeliveryAck (deviceID s) (bytes_of_string recipientID)
           (now / 1000000) payload signature 7 "" [])
  end.

Definition undecryptable_content : string :=
  "[Mensagem criptografada - chave não disponível]".

Definition invalid_signature_prefix : string := "[AVISO: Assinatura inválida] ".

(** [handleUserMessage]. *)
Definition handleUserMessage (now : Z) (packet : BitchatPacket) (s : MeshState)
    : MeshState :=
  let senderID := string_of_bytes (SenderID packet) in
  match peers s !! senderID with
  | None => s
  | Some peer =>
      let '(mid, s1) := GenerateMessageID packet s in
      let isPrivate := bool_decide (RecipientID packet = deviceID s1) in
      let '(content, isEncrypted) :=
        if isPrivate then
          match Decrypt (Payload packet) (bytes_of_string senderID) with
          | Some decrypted => (string_of_bytes decrypted, true)
          | None => (undecryptable_content, true)
          end
        else (string_of_bytes (Payload packet), false) in
      let content :=
        if decide (0 < length (Signature packet))%nat then
          match Verify (Signature packet) (Payload packet) (bytes_of_string senderID) with
          | Some true => content
          | _ => (invalid_signature_prefix +:+ content)%string
          end
        else content in
      let message := mkMessage mid (Name peer) content (Timestamp packet) false
                       isPrivate "" senderID "" [] isEncrypted in
      let s2 := sendDeliveryAck now mid senderID s1 in
      notify s2 (OnMessageReceived message)
  end.

(** [handleDeliveryAck] and [handleReadReceipt]. *)
Definition handleStatusPacket (status now : Z) (packet : BitchatPacket) (s : MeshState)
    : MeshState :=
  if decide (length (Payload packet) < 16)%nat then s
  else notify s (OnMessageDeliveryChanged (string_of_bytes (take 16 (Payload packet)))
                   status (string_of_bytes (SenderID packet)) (now / 1000000)).

(** [processPacketForUs]. *)
Definition processPacketForUs (now : Z) (packet : BitchatPacket) (s : MeshState)
    : MeshState :=
  let t := MsgType packet in
  if decide (t = MessageTypeMessage) then handleUserMessage now packet s
  else if decide (t = MessageTypeAnnounce) then handleAnnounce packet s
  else if decide (t = MessageTypeKeyExchange) then handleKeyExchange packet s
  else if decide (t = MessageTypeDeliveryAck) then
    handleStatusPacket DeliveryStatusDelivered now packet s
  else if decide (t = MessageTypeReadReceipt) then
    handleStatusPacket DeliveryStatusRead now packet s
  else s.

(** [handleIncomingPacket] at instant [now].  It decrements the TTL of the
    packet it is given in place: the first component is that packet as its
    caller sees it afterwards. *)
Definition handleIncomingPacket (now : Z) (packet : BitchatPacket) (s : MeshState)
    : BitchatPacket * MeshState :=
  let '(messageID, s1) := GenerateMessageID packet s in
  if ExpiringSet_Contains now messageID (seenMessages s1) then (packet, s1)
  else
    let s2 := set_seen s1 (ExpiringSet_Add DefaultMessageCacheTTL now messageID
                             (seenMessages s1)) in
    if decide (TTL packet <= 0) then (packet, s2)
    else
      let packet := set_TTL packet (TTL packet - 1) in
      let s3 := addToMessageCache now messageID packet
                  (string_of_bytes (SenderID packet)) s2 in
      let isForUs := isPacketForUs packet s3 in
      if isForUs then (packet, processPacketForUs now packet s3) else (packet, s3).

(** [findPeerIDByNickname]: the first peer in iteration order with that
    name, or [""]. *)
Definition findPeerIDByNickname (nickname : string) (s : MeshState) : string :=
  match list_find (fun kv => Name kv.2 = nickname) (map_to_list (peers s)) with
  | Some (_, (id, _)) => id
  | None => ""
  end.

Inductive SendError := ErrPeerNotFound | ErrEncrypt | ErrSign.

(** [SendMessage] at instant [now]: the result, the message as updated
    through its pointer, and the service state. *)
Definition SendMessage (now : Z) (message : BitchatMessage) (s : MeshState)
    : (string + SendError) * BitchatMessage * MeshState :=
  let mk R payload := mkPacket 1 MessageTypeMessage (deviceID s) R (now / 1000000)
                        payload [] 7 "" [] in
  let prepared :=
    if msg_IsPrivate message then
      let peerID := findPeerIDByNickname (msg_RecipientNickname message) s in
      if decide (peerID = "") then inr ErrPeerNotFound
      else match Encrypt (bytes_of_string (msg_Content message)) (bytes_of_string peerID) with
           | None => inr ErrEncrypt
           | Some encrypted =>
               inl (mk (bytes_of_string peerID) encrypted,
                    mkMessage (msg_ID message) (msg_Sender message) (msg_Content message)
                      (msg_Timestamp message) (msg_IsRelay message) (msg_IsPrivate message)
                      (msg_RecipientNickname message) (msg_SenderPeerID message)
                      (msg_Channel message) encrypted true)
           end
    else inl (mk BroadcastRecipient (bytes_of_string (msg_Content message)), message) in
  match prepared with
  | inr e => (inr e, message, s)
  | inl (packet, message) =>
      match Sign (Payload packet) with
      | None => (inr ErrSign, message, s)
      | Some signature =>
          let packet := mkPacket (Version packet) (MsgType packet) (SenderID packet)
                          (RecipientID packet) (Timestamp packet) (Payload packet)
                          signature (TTL packet) (ID packet) (Nonce packet) in
          let '(messageID, s1) := GenerateMessageID packet s in
          let message := mkMessage messageID (msg_Sender message) (msg_Content message)
                           (msg_Timestamp message) (msg_IsRelay message)
                           (msg_IsPrivate message) (msg_RecipientNickname message)
                           (msg_SenderPeerID message) (msg_Channel message)
                           (msg_EncryptedContent message) (msg_IsEncrypted message) in
          (inl messageID, message, send_outgoing s1 packet)
      end
  end.

End MeshService.

(** A node with device id [1..8] knowing one peer, ["ABCDEFGH"] named
    ["alice"], and a broadcast chat packet from that peer with TTL 7.
    [sample_entropy] gives the digests ["0"], ["1"], ... in turn. *)
Definition sample_entropy (n : nat) : string :=
  String (Ascii.ascii_of_nat (48 + n)) EmptyString.

Definition sample_mesh : MeshState :=
  mkMesh [1; 2; 3; 4; 5; 6; 7; 8] {[ "ABCDEFGH" := mkPeer "ABCDEFGH" "alice" ]}
    ∅ ∅ BatteryModeNormal [] [] 0.

Definition chat_packet : BitchatPacket :=
  mkPacket 1 MessageTypeMessage (bytes_of_string "ABCDEFGH") BroadcastRecipient
    1000 [104; 105] [] 7 "" [].

Definition sample_sign (data : list Z) : option (list Z) := Some [0].

(** The ingress pipeline of this node: no key to decrypt or verify with,
    announce and key-exchange packets ignored. *)
Definition sample_ingress (now : Z) (p : BitchatPacket) (s : MeshState)
    : BitchatPacket * MeshState :=
  handleIncomingPacket (fun _ _ => None) (fun _ _ _ => None) sample_sign
    (fun _ s => s) (fun _ s => s) sample_entropy now p s.

Definition is_message_received (call : DelegateCall) : bool :=
  match call with
  | OnMessageReceived _ => true
  | _ => false
  end.

Definition received_count (s : MeshState) : nat :=
  length (filter (fun c => is_message_received c = true) (delegateCalls s)).

(** A private message to the nickname ["bob"]. *)
Definition message_to_bob : BitchatMessage :=
  mkMessage "" "me" "hi" 0 false true "bob" "" "" [] false.

(* ------------------------------------------------------------------ *)
(** ** Router (mesh package, [Router.RoutePacket]) *)

Record RoutingConfig := mkRoutingConfig {
  MaxHops : Z;
  AllowRelay : bool;
  AllowBroadcast : bool;
  BlockedPeers : list string
}.

Definition DefaultRoutingConfig : RoutingConfig := mkRoutingConfig 3 true true [].

Record Router := mkRouter {
  config : RoutingConfig;
  blockedPeersMap : gmap string bool
}.

Definition NewRouter (cfg : RoutingConfig) : Router :=
  mkRouter cfg (list_to_map (map (fun id => (id, true)) (BlockedPeers cfg))).

(** [isBlocked]: a missing key reads as [false]. *)
Definition isBlocked (r : Router) (peerID : string) : bool :=
  default false (blockedPeersMap r !! peerID).

Section Routing.
(** [sendFunc], with [Some err] for an error. *)
Variable sendFunc : BitchatPacket -> string -> option string.

(** [RoutePacket]: the packet as its caller sees it afterwards (the TTL
    is decremented in place), the calls of [sendFunc] in order, and the
    error returned. *)
Definition RoutePacket (r : Router) (packet : BitchatPacket) (knownPeers : list string)
    : BitchatPacket * list (BitchatPacket * string) * option string :=
  if isBlocked r (string_of_bytes (SenderID packet)) then (packet, [], None)
  else if decide (TTL packet <= 0) then (packet, [], None)
  else
    let packet := set_TTL packet (TTL packet - 1) in
    match RecipientID packet with
    | [] =>
        if negb (AllowBroadcast (config r)) then (packet, [], None)
        else (packet, map (fun peerID => (packet, peerID))
                        (filter (fun peerID => isBlocked r peerID = false) knownPeers),
              None)
    | _ =>
        let recipientID := string_of_bytes (RecipientID packet) in
        if isBlocked r recipientID then (packet, [], None)
        else (packet, [(packet, recipientID)], sendFunc packet recipientID)
    end.

End Routing.

(** A packet from ["ABCDEFGH"] addressed to ["peer2"], with TTL 1. *)
Definition last_hop_packet : BitchatPacket :=
  mkPacket 1 MessageTypeMessage (bytes_of_string "ABCDEFGH") (bytes_of_string "peer2")
    1000 [104; 105] [] 1 "" [].

(* ------------------------------------------------------------------ *)
(** ** Fragmenter ([LinuxMeshProvider.sendFragmentedPacket]) *)

Definition MaxPacketSize : nat := 512.
Definition MaxFragmentPayloadSize : nat := 480.

(** [isDirectedPacket]: a non-empty recipient that is not all [0xFF]. *)
Definition isDirectedPacket (packet : BitchatPacket) : bool :=
  match RecipientID packet with
  | [] => false
  | r => existsb (fun b => negb (b =? 255)) r
  end.

(** Where the adapter sends: [SendData] to the peer whose id is the hex
    encoding of the given bytes, or [BroadcastData]. *)
Inductive Destination := SendTo (recipientID : list Z) | Broadcast.

Definition fragment_count (n : nat) : nat :=
  (n + MaxFragmentPayloadSize - 1) / MaxFragmentPayloadSize.

Definition fragment_type (i numFragments : nat) : Z :=
  if decide (i = 0)%nat then MessageTypeFragmentStart
  else if decide (i = numFragments - 1)%nat then MessageTypeFragmentEnd
  else MessageTypeFragmentContinue.

(** [data[offset:end]] of fragment [i]. *)
Definition fragment_slice (data : list Z) (i : nat) : list Z :=
  let offset := (i * MaxFragmentPayloadSize)%nat in
  let end_ := Nat.min (offset + MaxFragmentPayloadSize) (length data) in
  take (end_ - offset) (drop offset data).

(** [fragPayload]: [copy] of [fragmentID] into 4 zero bytes, then
    [byte(i)], [byte(numFragments)] and the slice. *)
Definition fragment_payload (fragmentID data : list Z) (i numFragments : nat) : list Z :=
  take 4 (fragmentID ++ repeat 0 4) ++
  [to_byte (Z.of_nat i); to_byte (Z.of_nat numFragments)] ++
  fragment_slice data i.

Definition fragment_packet (packet : BitchatPacket) (fragmentID data : list Z)
    (i numFragments : nat) : BitchatPacket :=
  mkPacket (Version packet) (fragment_type i numFragments) (SenderID packet)
    (RecipientID packet) (Timestamp packet)
    (fragment_payload fragmentID data i numFragments) [] (TTL packet) "" [].

Section Fragmenter.
(** The adapter: [Some err] when the send fails. *)
Variable send : Destination -> list Z -> option string.
(** [utils.GenerateRandomID(4)] at this call. *)
Variable fragmentID : list Z.

(** The loop of [sendFragmentedPacket] over the indices [idxs]: the
    transmissions made, in order, and the error that stopped it. *)
Fixpoint send_fragments (packet : BitchatPacket) (data : list Z) (numFragments : nat)
    (idxs : list nat) : list (Destination * list Z) * option string :=
  match idxs with
  | [] => ([], None)
  | i :: rest =>
      let fragData := Encode (fragment_packet packet fragmentID data i numFragments) in
      let dest := if isDirectedPacket packet then SendTo (RecipientID packet)
                  else Broadcast in
      match send dest fragData with
      | Some err => ([(dest, fragData)], Some err)
      | None =>
          let '(sent, r) := send_fragments packet data numFragments rest in
          ((dest, fragData) :: sent, r)
      end
  end.

Definition sendFragmentedPacket (packet : BitchatPacket) (data : list Z)
    : list (Destination * list Z) * option string :=
  let numFragments := fragment_count (length data) in
  send_fragments packet data numFragments (seq 0 numFragments).

End Fragmenter.

(** The packet of the specification's fragmentation scenario: a message
    with a 1200-byte payload between two 8-byte ids. *)
Definition large_packet : BitchatPacket :=
  mkPacket 1 MessageTypeMessage [1; 2; 3; 4; 5; 6; 7; 8] [9; 10; 11; 12; 13; 14; 15; 16]
    1000 (repeat 120 1200) [] 7 "" [].

(* ------------------------------------------------------------------ *)
(** ** Peer key registration ([EncryptionService.AddPeerPublicKey]) *)

(** Key material derived by the service, kept as the call that derived
    it: [X25519 scalar point] is [curve25519.ScalarMult(scalar, point)];
    [HkdfSha256 secret salt info len] is the first [len] bytes read from
    [hkdf.New(sha256.New, secret, salt, info)]. *)
Inductive KeyTerm :=
  | X25519 (scalar point : list Z)
  | HkdfSha256 (secret : KeyTerm) (salt info : list Z) (len : nat).

(** The fields of [EncryptionService] that registration touches. *)
Record EncryptionState := mkEncryption {
  privateKey : list Z;
  peerPublicKeys : gmap string (list Z);
  peerSigningKeys : gmap string (list Z);
  peerIdentityKeys : gmap string (list Z);
  sharedSecrets : gmap string KeyTerm
}.

Inductive EncryptionError := ErrInvalidPublicKey.

(** [AddPeerPublicKey]: the error returned and the new state. *)
Definition AddPeerPublicKey (peerID : string) (publicKeyData : list Z)
    (es : EncryptionState) : option EncryptionError * EncryptionState :=
  if decide (length publicKeyData <> 96)%nat then (Some ErrInvalidPublicKey, es)
  else
    let keyAgreementKey := take 32 publicKeyData in
    let signingKey := take 32 (drop 32 publicKeyData) in
    let identityKey := take 32 (drop 64 publicKeyData) in
    let sharedKey := X25519 (privateKey es) keyAgreementKey in
    let derivedKey := HkdfSha256 sharedKey (bytes_of_string "bitchat-v1") [] 32 in
    (None, mkEncryption (privateKey es)
             (<[peerID := keyAgreementKey]> (peerPublicKeys es))
             (<[peerID := signingKey]> (peerSigningKeys es))
             (<[peerID := identityKey]> (peerIdentityKeys es))
             (<[peerID := derivedKey]> (sharedSecrets es))).

(** The session key in the words of the specification:
    [HKDF-SHA256(shared, info="bitchat-v1")], with no salt. *)
Definition spec_session_key (shared : KeyTerm) : KeyTerm :=
  HkdfSha256 shared [] (bytes_of_string "bitchat-v1") 32.

Definition sample_encryption : EncryptionState :=
  mkEncryption (repeat 7 32) ∅ ∅ ∅ ∅.

Definition sample_bundle : list Z := repeat 1 32 ++ repeat 2 32 ++ repeat 3 32.

(* ------------------------------------------------------------------ *)
(** ** Signed data ([PacketDataForSignature] in binary.go) *)


(* ------------------------------------------------------------------ *)
(** ** Receiving side of [LinuxMeshProvider] (fragment reassembly) *)

(** [hex.EncodeToString]: two lower-case hex digits per byte. *)
Definition hex_digit (n : Z) : Ascii.ascii :=
  if decide (n < 10) then Ascii.ascii_of_N (Z.to_N (48 + n))
  else Ascii.ascii_of_N (Z.to_N (87 + n)).

Definition hex_EncodeToString (l : list Z) : string :=
  fold_right (fun b acc => String (hex_digit (b / 16)) (String (hex_digit (b mod 16)) acc))
    EmptyString l.

(** [FragmentManager], its three maps keyed by the hex fragment id. *)
Record FragmentManager := mkFragmentManager {
  fragments : gmap string (gmap Z (list Z));
  startTime : gmap string Z;
  totalFrags : gmap string Z
}.

Definition NewFragmentManager : FragmentManager := mkFragmentManager ∅ ∅ ∅.

(** Deletes [id] from the three maps. *)
Definition forget_fragments (fm : FragmentManager) (id : string) : FragmentManager :=
  mkFragmentManager (delete id (fragments fm)) (delete id (startTime fm))
    (delete id (totalFrags fm)).

(** [cleanupOldFragments] at instant [now]: drops every id started more
    than 30 s before. *)
Definition cleanupOldFragments (now : Z) (fm : FragmentManager) : FragmentManager :=
  foldl forget_fragments fm
    (filter (fun kv => now - kv.2 > 30 * Second) (map_to_list (startTime fm))).*1.

(** [reassemblePacket]: the present fragments [0 .. total-1], in index
    order. *)
Definition reassemblePacket (frags : gmap Z (list Z)) (total : Z) : list Z :=
  concat (map (fun i => default [] (frags !! i)) (seqZ 0 total)).

(** [AddFragment] at instant [now]: whether the packet is complete, the
    reassembled bytes ([nil] otherwise), and the new manager.  The total
    is recorded only by the first fragment of an id; a missing total
    reads as [0]. *)
Definition AddFragment (now : Z) (fragmentID : list Z) (index total : Z) (data : list Z)
    (isStart isEnd : bool) (fm : FragmentManager)
    : bool * list Z * FragmentManager :=
  let idStr := hex_EncodeToString fragmentID in
  let fm1 :=
    match fragments fm !! idStr with
    | Some _ => fm
    | None => mkFragmentManager (<[idStr := ∅]> (fragments fm))
                (<[idStr := now]> (startTime fm)) (<[idStr := total]> (totalFrags fm))
    end in
  let frags := <[index := data]> (default ∅ (fragments fm1 !! idStr)) in
  let fm2 := mkFragmentManager (<[idStr := frags]> (fragments fm1)) (startTime fm1)
               (totalFrags fm1) in
  let totalF := default 0 (totalFrags fm2 !! idStr) in
  if decide (Z.of_nat (size frags) = totalF) then
    (true, reassemblePacket frags totalF, forget_fragments fm2 idStr)
  else (false, [], cleanupOldFragments now fm2).

(** [isFragmentPacket]. *)
Definition isFragmentPacket (packet : BitchatPacket) : bool :=
  bool_decide (MsgType packet = MessageTypeFragmentStart) ||
  bool_decide (MsgType packet = MessageTypeFragmentContinue) ||
  bool_decide (MsgType packet = MessageTypeFragmentEnd).

(** [handleFragmentPacket] at instant [now]: the new manager and the
    packets pushed on [incomingMessages]. *)
Definition handleFragmentPacket (now : Z) (packet : BitchatPacket) (fm : FragmentManager)
    : FragmentManager * list BitchatPacket :=
  if decide (length (Payload packet) < 6)%nat then (fm, []) else
  let P := Payload packet in
  let '(complete, reassembled, fm1) :=
    AddFragment now (take 4 P) (nth 4 P 0) (nth 5 P 0) (drop 6 P)
      (bool_decide (MsgType packet = MessageTypeFragmentStart))
      (bool_decide (MsgType packet = MessageTypeFragmentEnd)) fm in
  if complete then
    match Decode reassembled with
    | Some completePacket => (fm1, [completePacket])
    | None => (fm1, [])
    end
  else (fm1, []).

(** [handleReceivedData] at instant [now]. *)
Definition handleReceivedData (now : Z) (data : list Z) (fm : FragmentManager)
    : FragmentManager * list BitchatPacket :=
  match Decode data with
  | None => (fm, [])
  | Some packet =>
      if isFragmentPacket packet then handleFragmentPacket now packet fm
      else (fm, [packet])
  end.

(** The adapter's callback run on each received transmission in turn,
    each at its own instant: the final manager and everything pushed on
    [incomingMessages]. *)
Fixpoint receive_all (fm : FragmentManager) (arrivals : list (Z * list Z))
    : FragmentManager * list BitchatPacket :=
  match arrivals with
  | [] => (fm, [])
  | (now, data) :: rest =>
      let '(fm1, out1) := handleReceivedData now data fm in
      let '(fm2, out2) := receive_all fm1 rest in
      (fm2, out1 ++ out2)
  end.

(** [SendPacket] with [fragmentID] the id [sendFragmentedPacket] would
    draw: the transmissions made and the error returned. *)
Definition SendPacket (send : Destination -> list Z -> option string)
    (fragmentID : list Z) (packet : BitchatPacket)
    : list (Destination * list Z) * option string :=
  let data := Encode packet in
  if decide (MaxPacketSize < length data)%nat then
    sendFragmentedPacket send fragmentID packet data
  else
    let dest := if isDirectedPacket packet then SendTo (RecipientID packet) else Broadcast in
    ([(dest, data)], send dest data).

(** The map of slices of [data] a manager holds once the fragments with
    indices [l] have arrived, and the entry it keeps for an id while the
    reassembly is pending. *)
Definition received_fragments (data : list Z) (l : list nat) : gmap Z (list Z) :=
  list_to_map ((fun i => (Z.of_nat i, fragment_slice data i)) <$> l).

Definition fragments_pending (key : string) (total t0 : Z) (m : gmap Z (list Z))
    (fm : FragmentManager) : Prop :=
  fragments fm !! key = Some m /\ totalFrags fm !! key = Some total /\
  startTime fm !! key = Some t0.

(** The transmissions of [large_packet] by [SendPacket] with fragment id
    [1..4], all sends succeeding, and the same transmissions received one
    second later in reverse order. *)
Definition large_transmissions : list (Destination * list Z) :=
  (SendPacket (fun _ _ => None) [1; 2; 3; 4] large_packet).1.

Definition reversed_arrivals : list (Z * list Z) :=
  map (fun d => (Second, d.2)) (rev large_transmissions).

(* ------------------------------------------------------------------ *)
(** ** Messages ([internal/protocol/message.go], binary.go) *)


(** [protocol.Message]; its fields share names with [BitchatPacket]'s,
    hence the module.  [Type] is [MsgType] as for packets. *)
Module Message.
Record t := mk {
  MessageID : string;
  MsgType : Z;
  Content : list Z;
  SenderID : list Z;
  RecipientID : list Z;
  Timestamp : Z;
  Compressed : bool;
  Encrypted : bool;
  Nonce : list Z;
  Channel : string
}.
(** [Message.ID]. *)
Definition ID (m : t) : string := MessageID m.
End Message.



(** [utils.ByteArraysEqual]: the length check, then the loop over [a]
    that returns [false] at the first differing byte. *)
Definition ByteArraysEqual (a b : list Z) : bool :=
  if decide (length a <> length b) then false
  else forallb (fun i => bool_decide (nth i a 0 = nth i b 0)) (seq 0 (length a)).

(* ------------------------------------------------------------------ *)
(** ** [ExpiringSet] ([pkg/utils], unnamed/part_011) *)

(** The set is its map from item to expiry instant; [now] is the reading
    of [time.Now()] in the call.  [expiry.After(now)] is [now < expiry],
    [expiry.Before(now)] is [expiry < now]. *)

(** [Add], with the result it returns: [false] when the item is present
    and not expired; otherwise the item gets expiry [now + ttl]. *)
Definition ExpiringSet_AddResult (ttl now : Z) (item : string) (items : gmap string Z)
    : bool * gmap string Z :=
  match items !! item with
  | Some expiry =>
      if decide (now < expiry) then (false, items) else (true, <[item := now + ttl]> items)
  | None => (true, <[item := now + ttl]> items)
  end.

Definition ExpiringSet_Remove (item : string) (items : gmap string Z) : gmap string Z :=
  delete item items.

(** [Size]: the items not expired at [now]. *)
Definition ExpiringSet_Size (now : Z) (items : gmap string Z) : nat :=
  length (filter (fun kv => now < kv.2) (map_to_list items)).

Definition ExpiringSet_Clear : gmap string Z := ∅.

(** [cleanup]: the loop over the map deleting the items whose expiry is
    before [now]. *)
Definition ExpiringSet_cleanup (now : Z) (items : gmap string Z) : gmap string Z :=
  foldl (fun m kv => if decide (kv.2 < now) then delete kv.1 m else m)
    items (map_to_list items).

(** [GetAll]: the items not expired at [now], in iteration order. *)
Definition ExpiringSet_GetAll (now : Z) (items : gmap string Z) : list string :=
  (filter (fun kv => now < kv.2) (map_to_list items)).*1.


(* ------------------------------------------------------------------ *)
(** ** [MessageRouter] ([pkg/mesh/routing.go]) *)

(** [processedMessages] is the [ExpiringSet]'s map, [processedTTL] its
    [ttl]. *)
Record MessageRouter := mkMessageRouter {
  processedMessages : gmap string Z;
  processedTTL : Z;
  routingTable : gmap string string;
  routingMetrics : gmap string Z;
  defaultTTL : Z;
  dedupeTime : Z
}.

Definition NewMessageRouter : MessageRouter :=
  mkMessageRouter ∅ (10 * Minute) ∅ ∅ 5 (10 * Minute).

Definition set_processed (mr : MessageRouter) (items : gmap string Z) : MessageRouter :=
  mkMessageRouter items (processedTTL mr) (routingTable mr) (routingMetrics mr)
    (defaultTTL mr) (dedupeTime mr).

Definition set_routes (mr : MessageRouter) (table : gmap string string)
    (metrics : gmap string Z) : MessageRouter :=
  mkMessageRouter (processedMessages mr) (processedTTL mr) table metrics
    (defaultTTL mr) (dedupeTime mr).

(** [ShouldProcess] at instant [now]: the dedup key is [packet.ID]. *)
Definition ShouldProcess (now : Z) (packet : BitchatPacket) (mr : MessageRouter)
    : bool * MessageRouter :=
  if decide (TTL packet = 0) then (false, mr)
  else
    let '(added, items) :=
      ExpiringSet_AddResult (processedTTL mr) now (ID packet) (processedMessages mr) in
    (added, set_processed mr items).

Definition MarkProcessed (now : Z) (packet : BitchatPacket) (mr : MessageRouter)
    : MessageRouter :=
  set_processed mr
    (ExpiringSet_AddResult (processedTTL mr) now (ID packet) (processedMessages mr)).2.

(** [DecreaseAndCheckTTL]: the result and the packet as its caller sees it
    afterwards. *)
Definition DecreaseAndCheckTTL (packet : BitchatPacket) : bool * BitchatPacket :=
  if decide (TTL packet <= 1) then (false, packet)
  else (true, set_TTL packet (TTL packet - 1)).

Definition SetDedupeTime (duration : Z) (mr : MessageRouter) : MessageRouter :=
  mkMessageRouter (processedMessages mr) duration (routingTable mr) (routingMetrics mr)
    (defaultTTL mr) duration.

Definition UpdateRoutingInfo (peerID nextHop : string) (metric : Z) (mr : MessageRouter)
    : MessageRouter :=
  let nextHop := if decide (nextHop = "") then peerID else nextHop in
  let update := set_routes mr (<[peerID := nextHop]> (routingTable mr))
                  (<[peerID := metric]> (routingMetrics mr)) in
  match routingMetrics mr !! peerID with
  | None => update
  | Some currentMetric => if decide (metric > currentMetric) then update else mr
  end.

(** [GetNextHop]: the next hop ([""] when absent) and whether it exists. *)
Definition GetNextHop (recipientID : string) (mr : MessageRouter) : string * bool :=
  match routingTable mr !! recipientID with
  | Some nextHop => (nextHop, true)
  | None => ("", false)
  end.

(** [RemovePeer]: the peer's own entries, then the loop over the table
    deleting every destination whose next hop is the peer.  The loop
    deletes only the entry it is visiting, so it visits every entry of the
    table it starts from. *)
Definition RemovePeer (peerID : string) (mr : MessageRouter) : MessageRouter :=
  let table := delete peerID (routingTable mr) in
  let metrics := delete peerID (routingMetrics mr) in
  let '(table, metrics) :=
    foldl (fun '(t, m) (kv : string * string) =>
             if decide (kv.2 = peerID) then (delete kv.1 t, delete kv.1 m) else (t, m))
      (table, metrics) (map_to_list table) in
  set_routes mr table metrics.

Definition GetAllPeers (mr : MessageRouter) : list string :=
  (map_to_list (routingTable mr)).*1.

Definition GetDirectPeers (mr : MessageRouter) : list string :=
  (filter (fun kv => kv.1 = kv.2) (map_to_list (routingTable mr))).*1.

(** [PrepareOutgoingPacket]: the packet as its caller sees it afterwards. *)
Definition PrepareOutgoingPacket (packet : BitchatPacket) (mr : MessageRouter)
    : BitchatPacket :=
  if decide (TTL packet = 0) then set_TTL packet (defaultTTL mr) else packet.

Definition MessageRouter_Clear (mr : MessageRouter) : MessageRouter :=
  mkMessageRouter ExpiringSet_Clear (processedTTL mr) ∅ ∅ (defaultTTL mr) (dedupeTime mr).

(** [GetNextHopCompat] and [AddPeer] (unnamed/part_012). *)
Definition GetNextHopCompat (recipientID : list Z) (mr : MessageRouter) : string :=
  (GetNextHop (string_of_bytes recipientID) mr).1.

Definition AddPeer (recipientID : list Z) (mr : MessageRouter) : MessageRouter :=
  let recipientIDStr := string_of_bytes recipientID in
  UpdateRoutingInfo recipientIDStr recipientIDStr 100 mr.

(** A peer forwarding a packet calls [DecreaseAndCheckTTL] and relays it
    when the result is [true]: the number of consecutive relays of a
    packet along a chain of [n] peers. *)
Fixpoint relay_hops (n : nat) (packet : BitchatPacket) : nat :=
  match n with
  | O => O
  | S n =>
      let '(ok, packet) := DecreaseAndCheckTTL packet in
      if ok then S (relay_hops n packet) else O
  end.

(* ------------------------------------------------------------------ *)
(** ** Blocked peers of [Router] (unnamed/part_006) *)

Definition BlockPeer (peerID : string) (r : Router) : Router :=
  mkRouter (config r) (<[peerID := true]> (blockedPeersMap r)).

Definition UnblockPeer (peerID : string) (r : Router) : Router :=
  mkRouter (config r) (delete peerID (blockedPeersMap r)).

Definition IsBlocked (peerID : string) (r : Router) : bool := isBlocked r peerID.

(** [GetBlockedPeers]: the keys of the map, in iteration order. *)
Definition GetBlockedPeers (r : Router) : list string :=
  (map_to_list (blockedPeersMap r)).*1.

(** [UpdateConfig]: the map is rebuilt from [config.BlockedPeers]. *)
Definition UpdateConfig (cfg : RoutingConfig) (r : Router) : Router :=
  mkRouter cfg (list_to_map (map (fun id => (id, true)) (BlockedPeers cfg))).

(** The calls a user of a [Router] can make on its blocked peers. *)
Inductive BlockOp :=
  | OpBlockPeer (peerID : string)
  | OpUnblockPeer (peerID : string)
  | OpUpdateConfig (cfg : RoutingConfig).

Definition block_step (r : Router) (op : BlockOp) : Router :=
  match op with
  | OpBlockPeer id => BlockPeer id r
  | OpUnblockPeer id => UnblockPeer id r
  | OpUpdateConfig cfg => UpdateConfig cfg r
  end.

(** What an operation says about [peerID]: [BlockPeer] and [UnblockPeer]
    of that peer decide it, [UpdateConfig] decides every peer. *)
Definition block_op_decides (peerID : string) (op : BlockOp) : option bool :=
  match op with
  | OpBlockPeer id => if decide (id = peerID) then Some true else None
  | OpUnblockPeer id => if decide (id = peerID) then Some false else None
  | OpUpdateConfig cfg => Some (bool_decide (peerID ∈ BlockedPeers cfg))
  end.

(* ------------------------------------------------------------------ *)
(** ** [MessageStore] ([internal/service/compression_service.go]) *)

Record MessageStoreConfig := mkMessageStoreConfig {
  StoreDir : string;
  RetentionPeriod : Z;
  MaxMessagesPerPeer : Z
}.

(** The store.  [peerFiles] and [channelFiles] are the files
    [peer_<peerID>.json] and [channel_<channel>.json] of [StoreDir], each
    holding the list last successfully written into it; [os.Remove] is
    taken to succeed (or to find no file), [os.WriteFile] is the
    [WriteFileOK] of the section below. *)
Record MessageStore := mkMessageStore {
  ms_config : MessageStoreConfig;
  pendingMessages : gmap string Message.t;
  peerMessages : gmap string (list Message.t);
  channelMessages : gmap string (list Message.t);
  peerFiles : gmap string (list Message.t);
  channelFiles : gmap string (list Message.t)
}.

Definition set_peerMessages (ms : MessageStore) (m : gmap string (list Message.t))
    : MessageStore :=
  mkMessageStore (ms_config ms) (pendingMessages ms) m (channelMessages ms)
    (peerFiles ms) (channelFiles ms).

Definition set_channelMessages (ms : MessageStore) (m : gmap string (list Message.t))
    : MessageStore :=
  mkMessageStore (ms_config ms) (pendingMessages ms) (peerMessages ms) m
    (peerFiles ms) (channelFiles ms).

Definition set_peerFiles (ms : MessageStore) (f : gmap string (list Message.t))
    : MessageStore :=
  mkMessageStore (ms_config ms) (pendingMessages ms) (peerMessages ms)
    (channelMessages ms) f (channelFiles ms).

Definition set_channelFiles (ms : MessageStore) (f : gmap string (list Message.t))
    : MessageStore :=
  mkMessageStore (ms_config ms) (pendingMessages ms) (peerMessages ms)
    (channelMessages ms) (peerFiles ms) f.

(** [ErrWriteFile] is the error [os.WriteFile] returns. *)
Inductive StoreError := ErrInvalidChannel | ErrInvalidPeer | ErrWriteFile.

(** The outcome of a store call: [nil], an error, or a run-time panic. *)
Inductive StoreResult := StoreOk | StoreFailed (e : StoreError) | StorePanic.

Definition store_result (err : option StoreError) : StoreResult :=
  match err with
  | None => StoreOk
  | Some e => StoreFailed e
  end.

Section MessageStoreFiles.
(** Whether [os.WriteFile(filepath.Join(dir, name), data, 0644)] succeeds.
    It fails, for instance, when [name] lies in a directory that does not
    exist, as ["peer_a/b.json"] for the peer id ["a/b"].  A failed write is
    taken to leave the file as it was (the open fails). *)
Variable WriteFileOK : string -> string -> bool.

(** [persistPeerMessages] and [persistChannelMessages]: nothing is written
    for an empty (or missing) list; otherwise the error is the one of
    [os.WriteFile] ([json.Marshal] of messages does not fail). *)
Definition persistPeerMessages (peerID : string) (ms : MessageStore)
    : option StoreError * MessageStore :=
  let messages := default [] (peerMessages ms !! peerID) in
  if decide (length messages = 0%nat) then (None, ms)
  else if WriteFileOK (StoreDir (ms_config ms)) ("peer_" +:+ peerID +:+ ".json")
  then (None, set_peerFiles ms (<[peerID := messages]> (peerFiles ms)))
  else (Some ErrWriteFile, ms).

Definition persistChannelMessages (channel : string) (ms : MessageStore)
    : option StoreError * MessageStore :=
  let messages := default [] (channelMessages ms !! channel) in
  if decide (length messages = 0%nat) then (None, ms)
  else if WriteFileOK (StoreDir (ms_config ms)) ("channel_" +:+ channel +:+ ".json")
  then (None, set_channelFiles ms (<[channel := messages]> (channelFiles ms)))
  else (Some ErrWriteFile, ms).

(** The limit of [StorePeerMessage] and [StoreChannelMessage]:
    [s[len(s)-MaxMessagesPerPeer:]] when [len(s) > MaxMessagesPerPeer];
    the slice panics when its low bound exceeds [len(s)]. *)
Definition keep_newest (max : Z) (msgs : list Message.t) : option (list Message.t) :=
  if decide (max < Z.of_nat (length msgs)) then
    if decide (max < 0) then None
    else Some (drop (length msgs - Z.to_nat max) msgs)
  else Some msgs.

(** [StorePeerMessage].  Initialising a missing entry to an empty slice
    and appending to it is appending to [default []]. *)
Definition StorePeerMessage (peerID : string) (message : Message.t) (ms : MessageStore)
    : StoreResult * MessageStore :=
  if decide (peerID = "") then (StoreFailed ErrInvalidPeer, ms)
  else
    let msgs := default [] (peerMessages ms !! peerID) ++ [message] in
    match keep_newest (MaxMessagesPerPeer (ms_config ms)) msgs with
    | None => (StorePanic, set_peerMessages ms (<[peerID := msgs]> (peerMessages ms)))
    | Some kept =>
        let r := persistPeerMessages peerID
                   (set_peerMessages ms (<[peerID := kept]> (peerMessages ms))) in
        (store_result r.1, r.2)
    end.

Definition GetPeerMessages (peerID : string) (ms : MessageStore)
    : list Message.t + StoreError :=
  if decide (peerID = "") then inr ErrInvalidPeer
  else inl (default [] (peerMessages ms !! peerID)).

Definition StoreChannelMessage (message : Message.t) (ms : MessageStore)
    : StoreResult * MessageStore :=
  let channel := Message.Channel message in
  if decide (channel = "") then (StoreFailed ErrInvalidChannel, ms)
  else
    let msgs := default [] (channelMessages ms !! channel) ++ [message] in
    match keep_newest (MaxMessagesPerPeer (ms_config ms)) msgs with
    | None => (StorePanic, set_channelMessages ms (<[channel := msgs]> (channelMessages ms)))
    | Some kept =>
        let r := persistChannelMessages channel
                   (set_channelMessages ms (<[channel := kept]> (channelMessages ms))) in
        (store_result r.1, r.2)
    end.

Definition GetChannelMessages (channel : string) (ms : MessageStore)
    : list Message.t + StoreError :=
  if decide (channel = "") then inr ErrInvalidChannel
  else inl (default [] (channelMessages ms !! channel)).

(** [ClearPeerMessages] and [ClearChannelMessages]: the entry and its
    file go. *)
Definition ClearPeerMessages (peerID : string) (ms : MessageStore)
    : option StoreError * MessageStore :=
  if decide (peerID = "") then (Some ErrInvalidPeer, ms)
  else (None, set_peerFiles (set_peerMessages ms (delete peerID (peerMessages ms)))
                (delete peerID (peerFiles ms))).

Definition ClearChannelMessages (channel : string) (ms : MessageStore)
    : option StoreError * MessageStore :=
  if decide (channel = "") then (Some ErrInvalidChannel, ms)
  else (None, set_channelFiles (set_channelMessages ms (delete channel (channelMessages ms)))
                (delete channel (channelFiles ms))).




(** A caller storing [msgs] for [peerID] one after the other. *)
Fixpoint store_peer_all (peerID : string) (msgs : list Message.t) (ms : MessageStore)
    : list StoreResult * MessageStore :=
  match msgs with
  | [] => ([], ms)
  | m :: rest =>
      let '(r, ms1) := StorePeerMessage peerID m ms in
      let '(rs, ms2) := store_peer_all peerID rest ms1 in
      (r :: rs, ms2)
  end.

End MessageStoreFiles.

(** A store keeping two messages per peer for a minute, and a message
    stamped [ts]. *)
Definition sample_store : MessageStore :=
  mkMessageStore (mkMessageStoreConfig "store" Minute 2) ∅ ∅ ∅ ∅ ∅.

Definition sample_message (ts : Z) : Message.t :=
  Message.mk "" MessageTypeMessage [104; 105] [1] [] ts false false [] "".

(** A pending message ["m1"] for ["peer1"], added at instant 0 with
    callback [0], as [AddRetryPacket] stores it. *)
Definition sample_packet : BitchatPacket :=
  mkPacket 1 MessageTypeMessage [1; 2; 3; 4; 5; 6; 7; 8] [9; 9; 9; 9; 9; 9; 9; 9]
    0 [104; 105] [] 7 "m1" [].

Definition sample_items : RetryItems :=
  AddRetryPacket DefaultRetryConfig 0 sample_packet "peer1" (Some 0%nat) ∅.

(** A run that adds ["m1"] with callback [0], clears the service, then
    lets the expiry timer fire and processes the retries after 31 min. *)
Definition cleared_run_ops : list RetryOp :=
  [OpAdd 0 sample_packet "peer1" (Some 0%nat); OpClearRetries;
   RetryTimerFired "m1"; OpProcessRetries (31 * Minute)].

(* ================================================================== *)
(** * Proofs *)

(* ------------------------------------------------------------------ *)
(** ** Codec round trip *)

Example encode_decode_small :
  Decode (Encode (mkPacket 1 4 [1;2] [3] 1000 [7;8;9] [] 3 "" [])) =
  Some (mkPacket 1 4 [1;2] [3] 1000 [7;8;9] [] 3 "" []).
Proof. vm_compute. reflexivity. Qed.

Lemma length_be_bytes (n : nat) (v : Z) : length (be_bytes n v) = n.
Proof.
  revert v; induction n as [|n IH]; intros v; simpl; [done|].
  rewrite length_app, IH; simpl; lia.
Qed.

Lemma be_value_snoc (l : list Z) (b : Z) :
  be_value (l ++ [b]) = be_value l * 256 + b.
Proof. unfold be_value. by rewrite fold_left_app. Qed.

Lemma be_value_be_bytes (n : nat) (v : Z) :
  0 <= v -> be_value (be_bytes n v) = v mod 2 ^ (8 * Z.of_nat n).
Proof.
  revert v; induction n as [|n IH]; intros v Hv.
  - simpl. rewrite Z.mod_1_r. reflexivity.
  - simpl be_bytes. rewrite be_value_snoc, IH by (apply Z.div_pos; lia).
    replace (8 * Z.of_nat (S n)) with (8 + 8 * Z.of_nat n) by lia.
    rewrite Z.pow_add_r by lia.
    rewrite (Z.rem_mul_r v (2 ^ 8) (2 ^ (8 * Z.of_nat n))) by
      (try apply Z.pow_pos_nonneg; lia).
    change (2 ^ 8) with 256. lia.
Qed.

Lemma ReadFull_app (l rest : list Z) :
  ReadFull (length l) (l ++ rest) = Some (l, rest).
Proof.
  unfold ReadFull. rewrite decide_True by (rewrite length_app; lia).
  by rewrite take_app_length, drop_app_length.
Qed.

Lemma ReadBE_app (n : nat) (v : Z) (rest : list Z) :
  0 <= v < 2 ^ (8 * Z.of_nat n) ->
  ReadBE n (be_bytes n v ++ rest) = Some (v, rest).
Proof.
  intros Hv. unfold ReadBE.
  rewrite <- (length_be_bytes n v) at 1. rewrite ReadFull_app. simpl.
  rewrite be_value_be_bytes by lia. rewrite Z.mod_small by lia. done.
Qed.

Lemma ReadField_app (len : Z) (l rest : list Z) :
  len = Z.of_nat (length l) ->
  ReadField len (l ++ rest) = Some (l, rest).
Proof.
  intros ->. unfold ReadField. case_decide.
  - rewrite Nat2Z.id. apply ReadFull_app.
  - destruct l; [done|simpl in *; lia].
Qed.

Lemma to_byte_small (n : nat) : (n < 256)%nat -> to_byte (Z.of_nat n) = Z.of_nat n.
Proof. intros H. unfold to_byte. apply Z.mod_small. lia. Qed.

Lemma length_Encode (p : BitchatPacket) :
  (18 <= length (Encode p))%nat.
Proof.
  unfold Encode. rewrite !length_app, !length_be_bytes. simpl. lia.
Qed.

(** Evaluates the reads of [Decode] while keeping the field encoders folded. *)
Ltac dsimpl := cbn -[be_bytes ReadBE ReadField to_byte].

(** Claim C1: for every valid packet whose sender id, recipient id and
    signature fit in one length byte and whose payload length fits in a
    [uint32], [Decode (Encode p)] succeeds and returns [p] in every wire
    field (version, type, sender id, recipient id, timestamp, payload,
    signature, TTL); the non-wire fields [ID] and [Nonce] come back empty. *)
Theorem Decode_Encode_roundtrip (p : BitchatPacket) :
  packet_ok p ->
  (length (SenderID p) < 256)%nat ->
  (length (RecipientID p) < 256)%nat ->
  (length (Signature p) < 256)%nat ->
  Z.of_nat (length (Payload p)) < 2 ^ 32 ->
  Decode (Encode p) =
  Some (mkPacket (Version p) (MsgType p) (SenderID p) (RecipientID p)
          (Timestamp p) (Payload p) (Signature p) (TTL p) "" []).
Proof.
  intros (_ & _ & _ & _ & _ & _ & _ & Hts) Hs Hr Hsig Hpl.
  unfold Decode. rewrite decide_False by (pose proof (length_Encode p); lia).
  unfold Encode. dsimpl.
  rewrite to_byte_small by done.
  rewrite ReadField_app by done. dsimpl.
  rewrite to_byte_small by done.
  rewrite ReadField_app by done. dsimpl.
  rewrite ReadBE_app by (simpl; lia). dsimpl.
  rewrite ReadBE_app by (rewrite Z.mod_small by lia; simpl; lia). dsimpl.
  rewrite Z.mod_small by lia.
  rewrite ReadField_app by done. dsimpl.
  rewrite to_byte_small by done.
  rewrite ReadField_app by done. simpl. done.
Qed.

Lemma Decode_Encode_roundtrip_witness :
  packet_ok (mkPacket 1 4 [1;2;3;4;5;6;7;8] BroadcastRecipient 1700000000000
               [104; 105] [] 3 "" []) /\
  Decode (Encode (mkPacket 1 4 [1;2;3;4;5;6;7;8] BroadcastRecipient
                    1700000000000 [104; 105] [] 3 "" [])) =
  Some (mkPacket 1 4 [1;2;3;4;5;6;7;8] BroadcastRecipient 1700000000000
          [104; 105] [] 3 "" []).
Proof.
  assert (Hok : packet_ok (mkPacket 1 4 [1;2;3;4;5;6;7;8] BroadcastRecipient
                   1700000000000 [104; 105] [] 3 "" [])).
  { unfold packet_ok, bytes_ok, byte_ok, BroadcastRecipient; simpl.
    repeat split; repeat constructor; lia. }
  split; [exact Hok|].
  exact (Decode_Encode_roundtrip _ Hok ltac:(simpl; lia) ltac:(simpl; lia)
           ltac:(simpl; lia) ltac:(simpl; lia)).
Defined.

(* ------------------------------------------------------------------ *)
(** ** Padding *)

Lemma Pad_pads (data : list Z) (t : Z) :
  Z.of_nat (length data) < t -> t - Z.of_nat (length data) <= 255 ->
  Pad data t =
  data ++ map to_byte (seqZ (Z.of_nat (length data))
                          (t - Z.of_nat (length data) - 1))
       ++ [t - Z.of_nat (length data)].
Proof.
  intros H1 H2. unfold Pad.
  rewrite decide_False by lia. rewrite decide_False by lia.
  unfold to_byte at 2. rewrite Z.mod_small by lia. done.
Qed.

Lemma Pad_skips (data : list Z) (t : Z) :
  ~ (Z.of_nat (length data) < t /\ t - Z.of_nat (length data) <= 255) ->
  Pad data t = data.
Proof.
  intros H. unfold Pad. case_decide; [done|]. case_decide; [done|]. lia.
Qed.

Lemma length_Pad_pads (data : list Z) (t : Z) :
  Z.of_nat (length data) < t -> t - Z.of_nat (length data) <= 255 ->
  Z.of_nat (length (Pad data t)) = t.
Proof.
  intros H1 H2. rewrite Pad_pads by done.
  rewrite !length_app, length_map, length_seqZ. simpl. lia.
Qed.

Lemma last_Pad_pads (data : list Z) (t : Z) :
  Z.of_nat (length data) < t -> t - Z.of_nat (length data) <= 255 ->
  last (Pad data t) = Some (t - Z.of_nat (length data)).
Proof.
  intros H1 H2. rewrite Pad_pads by done. rewrite app_assoc. apply last_snoc.
Qed.

(** Unpad strips exactly what Pad appended. *)
Lemma Unpad_Pad_pads (data : list Z) (t : Z) :
  Z.of_nat (length data) < t -> t - Z.of_nat (length data) <= 255 ->
  Unpad (Pad data t) = Some data.
Proof.
  intros H1 H2.
  pose proof (length_Pad_pads data t H1 H2) as Hlen.
  rewrite Pad_pads by done. rewrite app_assoc.
  set (m := map to_byte _). set (k := t - Z.of_nat (length data)).
  assert (Hm : length m = Z.to_nat (k - 1)).
  { subst m. by rewrite length_map, length_seqZ. }
  assert (HL : Z.of_nat (length ((data ++ m) ++ [k])) = t).
  { rewrite !length_app, Hm. simpl. lia. }
  unfold Unpad. rewrite HL.
  rewrite decide_False by lia.
  unfold go_index. rewrite HL, decide_True by lia.
  replace (Z.to_nat (t - 1)) with (length (data ++ m))
    by (rewrite length_app, Hm; lia).
  rewrite list_lookup_middle by done. simpl.
  rewrite decide_False by lia.
  unfold go_slice_to. rewrite HL, decide_True by lia.
  rewrite <- app_assoc. f_equal.
  apply take_app_length'. lia.
Qed.

Lemma elem_of_blockSizes (b : Z) :
  b ∈ blockSizes <-> b = 256 \/ b = 512 \/ b = 1024 \/ b = 2048.
Proof. unfold blockSizes. rewrite !elem_of_cons, elem_of_nil. tauto. Qed.

Lemma OptimalBlockSize_spec (n : Z) :
  (n + 16 <= 2048 ->
     OptimalBlockSize n ∈ blockSizes /\ n + 16 <= OptimalBlockSize n /\
     forall b, b ∈ blockSizes -> n + 16 <= b -> OptimalBlockSize n <= b) /\
  (2048 < n + 16 -> OptimalBlockSize n = n).
Proof.
  unfold OptimalBlockSize, blockSizes.
  repeat case_decide; split; intros; try lia;
    (split; [rewrite elem_of_blockSizes; lia|]);
    (split; [lia|]); intros b Hb; rewrite elem_of_blockSizes in Hb; lia.
Qed.

(** Claim C8, as stated, fails: a 241-byte message ending in byte [1] is
    not padded (the 512-byte block would need 271 bytes of padding), and
    [Unpad] then strips its last byte. *)
Lemma Pad_Unpad_roundtrip_counterexample :
  Unpad (Pad (repeat 0 240 ++ [1])
             (OptimalBlockSize (Z.of_nat (length (repeat 0 240 ++ [1]))))) <>
  Some (repeat 0 240 ++ [1]).
Proof.
  assert (E : Unpad (Pad (repeat 0 240 ++ [1])
                (OptimalBlockSize (Z.of_nat (length (repeat 0 240 ++ [1]))))) =
              Some (repeat 0 240)) by (vm_compute; reflexivity).
  rewrite E. intros H. injection H as H.
  apply (f_equal length) in H. vm_compute in H. discriminate H.
Qed.

(** Claim C8 (amended): [Pad data (OptimalBlockSize (len data))] pads to
    the smallest block of {256, 512, 1024, 2048} holding [len data + 16]
    (the original size when none does), writing the padding length into
    the last byte; when that padding would exceed 255 bytes (or the target
    is not above [len data]) [Pad] returns [data] unchanged.  [Unpad]
    inverts [Pad] whenever [Pad] padded; when [Pad] skipped, the round trip
    is [Unpad data], which strips [data]'s last [b] bytes when its final
    byte [b] is in [1 .. len data]. *)
Theorem Pad_OptimalBlockSize_Unpad (data : list Z) :
  let n := Z.of_nat (length data) in
  let t := OptimalBlockSize n in
  ((n + 16 <= 2048 ->
      t ∈ blockSizes /\ n + 16 <= t /\
      forall b, b ∈ blockSizes -> n + 16 <= b -> t <= b) /\
   (2048 < n + 16 -> t = n)) /\
  (n < t -> t - n <= 255 ->
     Z.of_nat (length (Pad data t)) = t /\
     last (Pad data t) = Some (t - n) /\
     Unpad (Pad data t) = Some data) /\
  (~ (n < t /\ t - n <= 255) ->
     Pad data t = data /\ Unpad (Pad data t) = Unpad data).
Proof.
  intros n t. split; [apply OptimalBlockSize_spec|]. split.
  - intros H1 H2. split; [by apply length_Pad_pads|].
    split; [by apply last_Pad_pads|]. by apply Unpad_Pad_pads.
  - intros H. rewrite Pad_skips by done. done.
Qed.

(* ------------------------------------------------------------------ *)
(** ** Unpad never panics *)

(** Claim C10: [Unpad] is total and never panics.  For every byte
    sequence it returns a prefix of its input: the input itself when it is
    empty or when the final byte [b] is [<= 0] or exceeds the length, and
    otherwise the input with its last [b] bytes removed. *)
Theorem Unpad_total_prefix (data : list Z) :
  exists r, Unpad data = Some r /\ r `prefix_of` data /\
    (data = [] -> r = []) /\
    (forall b, last data = Some b ->
       (b <= 0 \/ Z.of_nat (length data) < b -> r = data) /\
       (0 < b <= Z.of_nat (length data) ->
          r = take (length data - Z.to_nat b) data /\
          length r = (length data - Z.to_nat b)%nat)).
Proof.
  unfold Unpad. case_decide as Hn.
  - destruct data; [|simpl in Hn; lia].
    exists []. repeat split; try done; intros b Hb; done.
  - unfold go_index. rewrite decide_True by lia.
    replace (Z.to_nat (Z.of_nat (length data) - 1)) with (pred (length data))
      by lia.
    rewrite <- last_lookup.
    destruct (last data) as [b|] eqn:Hlast.
    2:{ apply last_None in Hlast. subst. simpl in Hn. lia. }
    simpl. case_decide as Hb.
    + exists data. split; [done|]. split; [done|]. split; [done|].
      intros b' [= <-]. split; [done|]. intros. exfalso. lia.
    + unfold go_slice_to. rewrite decide_True by lia.
      eexists. split; [reflexivity|]. split; [apply prefix_take|].
      split; [intros ->; done|].
      intros b' [= <-]. split; [lia|].
      replace (Z.to_nat (Z.of_nat (length data) - b))
        with (length data - Z.to_nat b)%nat by lia.
      split; [done|]. rewrite length_take. lia.
Qed.

(* ------------------------------------------------------------------ *)
(** ** Retry scheduler *)

Section RetryProofs.
Variable cfg : RetryConfig.

Lemma retryMessage_lookup_ne (now : Z) (id k : string) (items : RetryItems) :
  id <> k -> (retryMessage cfg now id items).1 !! k = items !! k.
Proof.
  intros Hne. unfold retryMessage.
  destruct (items !! id); simpl; [|done]. by rewrite lookup_insert_ne.
Qed.

Lemma retryMessage_lookup_eq (now : Z) (k : string) (items : RetryItems) :
  (retryMessage cfg now k items).1 !! k = retried cfg now <$> items !! k.
Proof.
  unfold retryMessage, retried.
  destruct (items !! k) eqn:E; simpl; [by rewrite lookup_insert_eq|by rewrite E].
Qed.

Lemma handleFailedDelivery_lookup_ne (id k : string) (items : RetryItems) :
  id <> k -> (handleFailedDelivery id items).1 !! k = items !! k.
Proof.
  intros Hne. unfold handleFailedDelivery.
  destruct (items !! id); simpl; [|done]. by rewrite lookup_delete_ne.
Qed.

Lemma for_each_id_fst (f : string -> RetryItems -> RetryItems * list RetryEvent)
    (ids : list string) (items : RetryItems) :
  (for_each_id f ids items).1 =
  foldl (fun m id => (f id m).1) items ids.
Proof.
  revert items; induction ids as [|id ids IH]; intros items; simpl; [done|].
  destruct (f id items) as [m1 e1] eqn:E1.
  destruct (for_each_id f ids m1) as [m2 e2] eqn:E2. simpl.
  rewrite <- IH, E2. done.
Qed.

Lemma for_each_id_untouched (f : string -> RetryItems -> RetryItems * list RetryEvent)
    (ids : list string) (items : RetryItems) (k : string) :
  (forall id m, id <> k -> (f id m).1 !! k = m !! k) ->
  k ∉ ids -> (for_each_id f ids items).1 !! k = items !! k.
Proof.
  intros Hf. rewrite for_each_id_fst.
  revert items; induction ids as [|id ids IH]; intros items Hk; simpl; [done|].
  rewrite not_elem_of_cons in Hk. destruct Hk as [Hne Hk].
  rewrite IH by done. apply Hf. congruence.
Qed.

Lemma for_each_retry_lookup (now : Z) (ids : list string) (items : RetryItems)
    (k : string) :
  NoDup ids -> k ∈ ids ->
  (for_each_id (retryMessage cfg now) ids items).1 !! k = retried cfg now <$> items !! k.
Proof.
  revert items; induction ids as [|id ids IH]; intros items Hnd Hk;
    [by apply elem_of_nil in Hk|].
  apply NoDup_cons in Hnd as [Hnin Hnd].
  simpl. destruct (retryMessage cfg now id items) as [m1 e1] eqn:E1.
  destruct (for_each_id (retryMessage cfg now) ids m1) as [m2 e2] eqn:E2. simpl.
  apply elem_of_cons in Hk as [<-|Hk].
  - pose proof (for_each_id_untouched _ ids m1 k
                  (fun id m H => retryMessage_lookup_ne now id k m H) Hnin) as H.
    rewrite E2 in H. simpl in H. rewrite H.
    change m1 with (m1, e1).1. rewrite <- E1. apply retryMessage_lookup_eq.
  - assert (id <> k) by (intros ->; contradiction).
    pose proof (IH m1 Hnd Hk) as HI. rewrite E2 in HI. simpl in HI. rewrite HI.
    change m1 with (m1, e1).1. rewrite <- E1.
    rewrite retryMessage_lookup_ne by done. done.
Qed.

Lemma handleFailedDelivery_lookup_None (id k : string) (items : RetryItems) :
  items !! k = None -> (handleFailedDelivery id items).1 !! k = None.
Proof.
  intros Hk. unfold handleFailedDelivery.
  destruct (items !! id); simpl; [|done].
  destruct (decide (id = k)) as [->|Hne].
  - apply lookup_delete_eq.
  - by rewrite lookup_delete_ne.
Qed.

Lemma for_each_failed_removes (ids : list string) (items : RetryItems)
    (k : string) (item : RetryItem) :
  k ∈ ids -> items !! k = Some item ->
  (for_each_id handleFailedDelivery ids items).1 !! k = None /\
  forall e, e ∈ callback_event k item false ->
            e ∈ (for_each_id handleFailedDelivery ids items).2.
Proof.
  revert items; induction ids as [|id ids IH]; intros items Hk Hitem;
    [by apply elem_of_nil in Hk|].
  simpl. destruct (handleFailedDelivery id items) as [m1 e1] eqn:E1.
  destruct (for_each_id handleFailedDelivery ids m1) as [m2 e2] eqn:E2. simpl.
  destruct (decide (id = k)) as [<-|Hne].
  - unfold handleFailedDelivery in E1. rewrite Hitem in E1.
    injection E1 as <- <-. split.
    + assert (Hgen : forall l m, m !! id = None ->
                foldl (fun m id' => (handleFailedDelivery id' m).1) m l !! id = None).
      { induction l as [|x l IHl]; intros m Hm; simpl; [done|].
        apply IHl. by apply handleFailedDelivery_lookup_None. }
      pose proof (Hgen ids (delete id items) (lookup_delete_eq _ _)) as H.
      rewrite <- for_each_id_fst, E2 in H. exact H.
    + intros e He. apply elem_of_app. by left.
  - apply elem_of_cons in Hk as [Hk|Hk]; [congruence|].
    assert (Hm1 : m1 !! k = Some item).
    { change m1 with (m1, e1).1. rewrite <- E1.
      by rewrite handleFailedDelivery_lookup_ne. }
    destruct (IH m1 Hk Hm1) as [H1 H2]. rewrite E2 in H1, H2. simpl in *.
    split; [done|]. intros e He. apply elem_of_app. right. by apply H2.
Qed.

Lemma due_keys_NoDup (now : Z) (P : string * RetryItem -> Prop)
    `{forall kv, Decision (P kv)} (items : RetryItems) :
  NoDup (filter P (filter (fun kv => NextAttempt kv.2 < now)
                     (map_to_list items))).*1.
Proof.
  eapply sublist_NoDup; [apply (NoDup_fst_map_to_list items)|].
  apply fmap_sublist. etrans; [apply sublist_filter|apply sublist_filter].
Qed.

Lemma due_keys_elem (now : Z) (P : string * RetryItem -> Prop)
    `{forall kv, Decision (P kv)} (items : RetryItems) (k : string) :
  k ∈ (filter P (filter (fun kv => NextAttempt kv.2 < now)
                   (map_to_list items))).*1 <->
  exists item, items !! k = Some item /\ NextAttempt item < now /\ P (k, item).
Proof.
  rewrite list_elem_of_fmap. split.
  - intros ([k' it] & -> & Hin). simpl.
    rewrite !list_elem_of_filter, elem_of_map_to_list in Hin.
    destruct Hin as (HP & Hnow & Hl). eauto.
  - intros (it & Hl & Hnow & HP). exists (k, it). split; [done|].
    rewrite !list_elem_of_filter, elem_of_map_to_list. eauto.
Qed.

(** [processRetries] on a due item below [MaxRetries] stores the retried
    item. *)
Lemma processRetries_retries (now : Z) (items : RetryItems) (k : string)
    (item : RetryItem) :
  items !! k = Some item -> NextAttempt item < now ->
  Attempts item < MaxRetries cfg ->
  (processRetries cfg now items).1 !! k = Some (retried cfg now item).
Proof.
  intros Hk Hdue Hlt. unfold processRetries.
  set (due := filter _ (map_to_list items)).
  set (toRetry := (filter (fun kv => Attempts kv.2 < MaxRetries cfg) due).*1).
  set (toRemove := (filter (fun kv => MaxRetries cfg <= Attempts kv.2) due).*1).
  assert (Hin : k ∈ toRetry).
  { subst toRetry due. apply due_keys_elem. eauto. }
  assert (Hnd : NoDup toRetry) by apply due_keys_NoDup.
  assert (Hout : k ∉ toRemove).
  { subst toRemove due. rewrite due_keys_elem.
    intros (it & Hl & _ & Hle). simpl in Hle. rewrite Hk in Hl.
    injection Hl as <-. lia. }
  pose proof (for_each_retry_lookup now toRetry items k Hnd Hin) as H1.
  destruct (for_each_id (retryMessage cfg now) toRetry items) as [m1 e1].
  simpl in H1. rewrite Hk in H1.
  pose proof (for_each_id_untouched handleFailedDelivery toRemove m1 k
                (fun id m H => handleFailedDelivery_lookup_ne id k m H) Hout) as H2.
  destruct (for_each_id handleFailedDelivery toRemove m1) as [m2 e2].
  simpl in *. by rewrite H2, H1.
Qed.

(** [processRetries] on a due item at or above [MaxRetries] removes it and
    calls its callback with failure. *)
Lemma processRetries_fails (now : Z) (items : RetryItems) (k : string)
    (item : RetryItem) :
  items !! k = Some item -> NextAttempt item < now ->
  MaxRetries cfg <= Attempts item ->
  (processRetries cfg now items).1 !! k = None /\
  forall e, e ∈ callback_event k item false -> e ∈ (processRetries cfg now items).2.
Proof.
  intros Hk Hdue Hge. unfold processRetries.
  set (due := filter _ (map_to_list items)).
  set (toRetry := (filter (fun kv => Attempts kv.2 < MaxRetries cfg) due).*1).
  set (toRemove := (filter (fun kv => MaxRetries cfg <= Attempts kv.2) due).*1).
  assert (Hin : k ∈ toRemove).
  { subst toRemove due. apply due_keys_elem. eauto. }
  assert (Hout : k ∉ toRetry).
  { subst toRetry due. rewrite due_keys_elem.
    intros (it & Hl & _ & Hlt). simpl in Hlt. rewrite Hk in Hl.
    injection Hl as <-. lia. }
  pose proof (for_each_id_untouched (retryMessage cfg now) toRetry items k
                (fun id m H => retryMessage_lookup_ne now id k m H) Hout) as H1.
  destruct (for_each_id (retryMessage cfg now) toRetry items) as [m1 e1].
  simpl in H1. rewrite Hk in H1.
  destruct (for_each_failed_removes toRemove m1 k item Hin H1) as [H2 H3].
  destruct (for_each_id handleFailedDelivery toRemove m1) as [m2 e2].
  simpl in *. split; [done|]. intros e He. apply elem_of_app. right. by apply H3.
Qed.

End RetryProofs.

(** Claim C7, as stated, fails: the first retry of ["m1"] (due at 5 s,
    processed at 6 s) raises [Attempts] to 2 but schedules the next
    attempt 7.5 s later, not [min(2 min, 5 s * 2 * 1.5) = 15 s] later. *)
Lemma retry_backoff_counterexample :
  exists item,
    (processRetries DefaultRetryConfig (6 * Second) sample_items).1 !! "m1" = Some item /\
    Attempts item = 2 /\
    NextAttempt item = 6 * Second + 7500000000 /\
    NextAttempt item <> 6 * Second + spec_backoff DefaultRetryConfig (Attempts item).
Proof.
  eexists. split; [vm_compute; reflexivity|]. vm_compute. split; [done|].
  split; [done|]. discriminate.
Qed.

Lemma retry_backoff_min (cfg : RetryConfig) (a : Z) :
  retry_backoff cfg a =
  Z.min (MaxBackoff cfg)
    (InitialBackoff cfg * (a - 1) * BackoffFactorNum cfg / BackoffFactorDen cfg).
Proof. unfold retry_backoff. case_decide; lia. Qed.

Lemma retry_backoff_mono (cfg : RetryConfig) (a b : Z) :
  0 <= InitialBackoff cfg -> 0 <= BackoffFactorNum cfg -> 0 < BackoffFactorDen cfg ->
  a <= b -> retry_backoff cfg a <= retry_backoff cfg b.
Proof.
  intros Hib Hnum Hden Hab. rewrite !retry_backoff_min.
  apply Z.min_le_compat_l. apply Z.div_le_mono; [done|].
  apply Z.mul_le_mono_nonneg_r; [done|].
  apply Z.mul_le_mono_nonneg_l; [done|lia].
Qed.

(** Claim C7 (amended): when [processRetries] retries a due item below
    [MaxRetries], it increments [Attempts] and sets [NextAttempt] to
    [now + min(MaxBackoff, InitialBackoff * (Attempts - 1) * BackoffFactor)]
    with the incremented [Attempts], i.e. the count before the increment;
    for a configuration with non-negative backoff and factor, this backoff
    is non-decreasing in the attempt count. *)
Theorem processRetries_backoff (cfg : RetryConfig) (now : Z) (items : RetryItems)
    (k : string) (item : RetryItem) :
  0 <= InitialBackoff cfg -> 0 <= BackoffFactorNum cfg -> 0 < BackoffFactorDen cfg ->
  items !! k = Some item -> NextAttempt item < now ->
  Attempts item < MaxRetries cfg ->
  (exists item',
     (processRetries cfg now items).1 !! k = Some item' /\
     Attempts item' = Attempts item + 1 /\
     NextAttempt item' =
       now + Z.min (MaxBackoff cfg)
               (InitialBackoff cfg * (Attempts item' - 1) * BackoffFactorNum cfg
                / BackoffFactorDen cfg)) /\
  (forall a b, a <= b -> retry_backoff cfg a <= retry_backoff cfg b).
Proof.
  intros Hib Hnum Hden Hk Hdue Hlt. split.
  - eexists. split; [by apply processRetries_retries|]. simpl.
    split; [done|]. by rewrite retry_backoff_min.
  - intros a b. by apply retry_backoff_mono.
Qed.

Lemma processRetries_backoff_witness :
  sample_items !! "m1" =
    Some (mkRetryItem sample_packet "peer1" 1 0 (5 * Second) (Some 0%nat)) /\
  exists item',
    (processRetries DefaultRetryConfig (6 * Second) sample_items).1 !! "m1" = Some item' /\
    Attempts item' = 2 /\
    NextAttempt item' =
      6 * Second + Z.min (MaxBackoff DefaultRetryConfig)
        (InitialBackoff DefaultRetryConfig * (Attempts item' - 1)
         * BackoffFactorNum DefaultRetryConfig / BackoffFactorDen DefaultRetryConfig).
Proof.
  assert (Hk : sample_items !! "m1" =
    Some (mkRetryItem sample_packet "peer1" 1 0 (5 * Second) (Some 0%nat)))
    by (vm_compute; reflexivity).
  split; [exact Hk|].
  destruct (processRetries_backoff DefaultRetryConfig (6 * Second) sample_items "m1" _
              ltac:(vm_compute; discriminate) ltac:(vm_compute; discriminate)
              ltac:(vm_compute; reflexivity) Hk ltac:(vm_compute; reflexivity)
              ltac:(vm_compute; reflexivity)) as [(item' & H1 & H2 & H3) _].
  exists item'. split; [exact H1|]. split; [exact H2|]. exact H3.
Defined.

(* ------------------------------------------------------------------ *)
(** ** Completion callbacks *)

Section CallbackAccounting.
Variable cfg : RetryConfig.
Variable c : nat.

Lemma callback_count_app (l1 l2 : list RetryEvent) :
  callback_count c (l1 ++ l2) = (callback_count c l1 + callback_count c l2)%nat.
Proof. unfold callback_count. by rewrite filter_app, length_app. Qed.

Lemma callback_count_event (k : string) (item : RetryItem) (b : bool) :
  callback_count c (callback_event k item b) =
  if decide (OnComplete item = Some c) then 1%nat else 0%nat.
Proof.
  unfold callback_count, callback_event.
  destruct (OnComplete item) as [c'|]; simpl.
  - rewrite filter_cons, filter_nil. simpl.
    destruct (Nat.eqb_spec c' c) as [->|Hne].
    + by rewrite !decide_True.
    + rewrite !decide_False by congruence. done.
  - done.
Qed.

Lemma owners_insert_new (k : string) (x : RetryItem) (m : RetryItems) :
  m !! k = None ->
  owners c (<[k:=x]> m) =
  ((if decide (OnComplete x = Some c) then 1 else 0) + owners c m)%nat.
Proof.
  intros Hk. unfold owners. rewrite (map_to_list_insert m k x Hk).
  rewrite filter_cons. simpl. case_decide; simpl; lia.
Qed.

Lemma owners_delete (k : string) (x : RetryItem) (m : RetryItems) :
  m !! k = Some x ->
  owners c m =
  ((if decide (OnComplete x = Some c) then 1 else 0) + owners c (delete k m))%nat.
Proof.
  intros Hk. unfold owners. rewrite <- (map_to_list_delete m k x Hk).
  rewrite filter_cons. simpl. case_decide; simpl; lia.
Qed.

Lemma owners_insert_same (k : string) (x y : RetryItem) (m : RetryItems) :
  m !! k = Some x -> OnComplete y = OnComplete x ->
  owners c (<[k:=y]> m) = owners c m.
Proof.
  intros Hk Hy. rewrite <- insert_delete_eq.
  rewrite owners_insert_new by apply lookup_delete_eq.
  rewrite (owners_delete k x m Hk), Hy. done.
Qed.

Lemma owners_empty : owners c ∅ = 0%nat.
Proof. unfold owners. by rewrite map_to_list_empty. Qed.

Lemma removal_no_new_owner (b : bool) (k : string) :
  no_new_owner c (fun m => match m !! k with
                         | Some item => (delete k m, callback_event k item b)
                         | None => (m, [])
                         end).
Proof.
  intros m. destruct (m !! k) as [x|] eqn:E; simpl.
  - rewrite callback_count_event, (owners_delete k x m E). lia.
  - unfold callback_count. simpl. lia.
Qed.

Lemma MarkDelivered_no_new_owner (k : string) : no_new_owner c (MarkDelivered k).
Proof. apply (removal_no_new_owner true k). Qed.

Lemma handleFailedDelivery_no_new_owner (k : string) :
  no_new_owner c (handleFailedDelivery k).
Proof. apply (removal_no_new_owner false k). Qed.

Lemma retryMessage_no_new_owner (now : Z) (k : string) :
  no_new_owner c (retryMessage cfg now k).
Proof.
  intros m. unfold retryMessage. destruct (m !! k) as [x|] eqn:E; simpl.
  - rewrite (owners_insert_same k x) by done. unfold callback_count. simpl. lia.
  - unfold callback_count. simpl. lia.
Qed.

Lemma for_each_id_no_new_owner
    (f : string -> RetryItems -> RetryItems * list RetryEvent) (ids : list string) :
  (forall id, no_new_owner c (f id)) -> no_new_owner c (for_each_id f ids).
Proof.
  intros Hf. induction ids as [|id ids IH]; intros m; simpl.
  - unfold callback_count. simpl. lia.
  - pose proof (Hf id m) as H1.
    destruct (f id m) as [m1 e1]. simpl in H1.
    pose proof (IH m1) as H2.
    destruct (for_each_id f ids m1) as [m2 e2]. simpl in *.
    rewrite callback_count_app. lia.
Qed.

Lemma processRetries_no_new_owner (now : Z) :
  no_new_owner c (processRetries cfg now).
Proof.
  intros m. unfold processRetries.
  set (ids1 := (filter _ (filter _ (map_to_list m))).*1).
  set (ids2 := (filter (fun kv => MaxRetries cfg <= Attempts kv.2) _).*1).
  pose proof (for_each_id_no_new_owner _ ids1 (retryMessage_no_new_owner now) m) as H1.
  destruct (for_each_id (retryMessage cfg now) ids1 m) as [m1 e1]. simpl in H1.
  pose proof (for_each_id_no_new_owner _ ids2 handleFailedDelivery_no_new_owner m1)
    as H2.
  destruct (for_each_id handleFailedDelivery ids2 m1) as [m2 e2]. simpl in *.
  rewrite callback_count_app. lia.
Qed.

Lemma retry_step_accounting (op : RetryOp) (m : RetryItems) :
  (callback_count c (retry_step cfg op m).2 + owners c (retry_step cfg op m).1
   <= owners c m + (if adds_callback c op then 1 else 0))%nat.
Proof.
  destruct op as [now p t cb|k|now|k|]; simpl.
  - unfold callback_count. simpl. unfold AddRetryPacket.
    destruct (m !! ID p) eqn:E; [lia|].
    rewrite owners_insert_new by done. simpl.
    case_decide as Hcb; [|lia]. rewrite Hcb, Nat.eqb_refl. lia.
  - pose proof (MarkDelivered_no_new_owner k m). lia.
  - pose proof (processRetries_no_new_owner now m). lia.
  - pose proof (handleFailedDelivery_no_new_owner k m). lia.
  - unfold callback_count, ClearRetries. simpl. rewrite owners_empty. lia.
Qed.

(** Over a whole run: calls of [c] plus items still holding [c] never
    exceed the items holding [c] at the start plus the additions of an
    item with [c]. *)
Lemma retry_run_accounting (ops : list RetryOp) (m : RetryItems) :
  (callback_count c (retry_run cfg ops m).2 + owners c (retry_run cfg ops m).1
   <= owners c m + adds_with c ops)%nat.
Proof.
  revert m; induction ops as [|op ops IH]; intros m; simpl.
  - unfold callback_count, adds_with. simpl. lia.
  - pose proof (retry_step_accounting op m) as H1.
    destruct (retry_step cfg op m) as [m1 e1]. simpl in H1.
    pose proof (IH m1) as H2.
    destruct (retry_run cfg ops m1) as [m2 e2]. simpl in *.
    rewrite callback_count_app. unfold adds_with in *. rewrite filter_cons.
    case_decide as Ha; simpl.
    + rewrite Ha in H1. lia.
    + destruct (adds_callback c op); [done|lia].
Qed.

End CallbackAccounting.

(** Claim C5, as stated, fails: after [AddRetryPacket] of ["m1"] with
    callback [0], [ClearRetries] drops the entry, and neither the expiry
    timer nor a later [processRetries] calls the callback: it never fires. *)
Lemma retry_callback_counterexample :
  adds_with 0 cleared_run_ops = 1%nat /\
  retry_run DefaultRetryConfig cleared_run_ops ∅ = (∅, []) /\
  callback_count 0 (retry_run DefaultRetryConfig cleared_run_ops ∅).2 = 0%nat.
Proof. vm_compute. auto. Qed.

(** Claim C5 (amended): a completion callback fires at most once: in any
    run from an empty service that adds an item with callback [c] at most
    once, [c] is called at most once.  [MarkDelivered] on a pending entry
    calls its callback with success and removes the entry;
    [handleFailedDelivery] (reached from the expiry timer started by
    [AddRetryPacket] after [MaxRetryTime]) calls it with failure and
    removes the entry; [processRetries] does the same for a due entry whose
    attempts reached [MaxRetries]; [ClearRetries] removes every entry and
    calls no callback, so the callback of a cleared entry is never called
    later in the run unless it is added again; a second [AddRetryPacket]
    with a pending id changes nothing, and its callback is never called
    later in the run unless it is added again. *)
Theorem retry_callback_at_most_once (cfg : RetryConfig) (c : nat) (ops : list RetryOp) :
  (adds_with c ops <= 1)%nat ->
  (callback_count c (retry_run cfg ops ∅).2 <= 1)%nat /\
  (forall items k item, items !! k = Some item ->
     retry_step cfg (OpMarkDelivered k) items =
       (delete k items, callback_event k item true) /\
     retry_step cfg (RetryTimerFired k) items =
       (delete k items, callback_event k item false)) /\
  (forall now items k item,
     items !! k = Some item -> NextAttempt item < now ->
     MaxRetries cfg <= Attempts item ->
     (processRetries cfg now items).1 !! k = None /\
     forall e, e ∈ callback_event k item false ->
               e ∈ (processRetries cfg now items).2) /\
  (forall now p target items item ops',
     items !! ID p = Some item -> owners c items = 0%nat -> adds_with c ops' = 0%nat ->
     retry_step cfg (OpAdd now p target (Some c)) items = (items, []) /\
     callback_count c (retry_run cfg (OpAdd now p target (Some c) :: ops') items).2 = 0%nat) /\
  (forall items ops', adds_with c ops' = 0%nat ->
     retry_step cfg OpClearRetries items = (∅, []) /\
     callback_count c (retry_run cfg (OpClearRetries :: ops') items).2 = 0%nat).
Proof.
  intros Hadd. split; [|split; [|split; [|split]]].
  - pose proof (retry_run_accounting cfg c ops ∅) as H.
    rewrite owners_empty in H. lia.
  - intros items k item Hk. simpl.
    unfold MarkDelivered, handleFailedDelivery. by rewrite Hk.
  - intros now items k item Hk Hdue Hge. by apply processRetries_fails.
  - intros now p target items item ops' Hk Ho Ha.
    assert (Hstep : retry_step cfg (OpAdd now p target (Some c)) items = (items, [])).
    { simpl. unfold AddRetryPacket. by rewrite Hk. }
    split; [done|]. cbn [retry_run]. rewrite Hstep.
    pose proof (retry_run_accounting cfg c ops' items) as H.
    destruct (retry_run cfg ops' items) as [m2 e2]. simpl in *. lia.
  - intros items ops' Ha. split; [done|]. simpl.
    pose proof (retry_run_accounting cfg c ops' (ClearRetries items)) as H.
    unfold ClearRetries in *. rewrite owners_empty in H.
    destruct (retry_run cfg ops' ∅) as [m2 e2]. simpl in *. lia.
Qed.

Lemma retry_callback_at_most_once_witness :
  (adds_with 0 cleared_run_ops <= 1)%nat /\
  (callback_count 0 (retry_run DefaultRetryConfig cleared_run_ops ∅).2 <= 1)%nat.
Proof.
  split; [vm_compute; lia|].
  apply (retry_callback_at_most_once DefaultRetryConfig 0 cleared_run_ops).
  vm_compute. lia.
Defined.

(* ------------------------------------------------------------------ *)
(** ** Ingress pipeline *)

(** The pipeline drops a packet when the id it draws for it is in the
    seen set: nothing is sent and no delegate call is made. *)
Lemma handleIncomingPacket_drops_seen Decrypt Verify Sign handleAnnounce handleKeyExchange
    entropy (now : Z) (p : BitchatPacket) (s : MeshState) :
  ExpiringSet_Contains now (entropy (idCalls s)) (seenMessages s) = true ->
  let r := handleIncomingPacket Decrypt Verify Sign handleAnnounce handleKeyExchange
             entropy now p s in
  outgoingMessages r.2 = outgoingMessages s /\ delegateCalls r.2 = delegateCalls s.
Proof.
  intros Hc. unfold handleIncomingPacket, GenerateMessageID. simpl.
  rewrite Hc. done.
Qed.

(** The id the pipeline checks does not depend on the packet: two
    packets met at the same point of a run get the same id. *)
Lemma GenerateMessageID_ignores_packet entropy (p q : BitchatPacket) (s : MeshState) :
  GenerateMessageID entropy p s = GenerateMessageID entropy q s.
Proof. done. Qed.

(** Claim C2 fails: running the ingress pipeline twice on the same chat
    packet (the pointer whose TTL the first run lowered from 7 to 6)
    calls [OnMessageReceived] twice and sends two delivery acks, since
    the second run draws a fresh id, absent from the seen set. *)
Theorem ingress_twice_delivers_twice :
  let '(p1, s1) := sample_ingress Second chat_packet sample_mesh in
  let '(p2, s2) := sample_ingress (2 * Second) p1 s1 in
  TTL p1 = 6 /\ TTL p2 = 5 /\
  received_count s1 = 1%nat /\ received_count s2 = 2%nat /\
  length (outgoingMessages s2) = 2%nat /\
  received_count (sample_ingress (2 * Second) chat_packet s1).2 = 2%nat.
Proof. vm_compute. repeat split. Qed.

(* ------------------------------------------------------------------ *)
(** ** Sending *)

Lemma findPeerIDByNickname_none (nickname : string) (s : MeshState) :
  (forall id peer, peers s !! id = Some peer -> Name peer <> nickname) ->
  findPeerIDByNickname nickname s = "".
Proof.
  intros Hno. unfold findPeerIDByNickname.
  assert (list_find (fun kv : string * Peer => Name kv.2 = nickname)
            (map_to_list (peers s)) = None) as ->; [|done].
  apply list_find_None. apply Forall_forall. intros [id peer] Hin.
  apply elem_of_map_to_list in Hin. simpl. by apply (Hno id peer).
Qed.

(** Claim C9: a private message whose recipient nickname is the name of
    no known peer makes [SendMessage] return [ErrPeerNotFound]; the
    message and the service state, its outgoing queue included, are left
    unchanged. *)
Theorem SendMessage_peer_not_found Sign Encrypt entropy (now : Z)
    (message : BitchatMessage) (s : MeshState) :
  msg_IsPrivate message = true ->
  (forall id peer, peers s !! id = Some peer -> Name peer <> msg_RecipientNickname message) ->
  SendMessage Sign Encrypt entropy now message s = (inr ErrPeerNotFound, message, s).
Proof.
  intros Hpriv Hno. unfold SendMessage. rewrite Hpriv.
  rewrite findPeerIDByNickname_none by done. done.
Qed.

Lemma SendMessage_peer_not_found_witness :
  SendMessage sample_sign (fun _ _ => None) sample_entropy Second message_to_bob sample_mesh =
  (inr ErrPeerNotFound, message_to_bob, sample_mesh).
Proof.
  apply SendMessage_peer_not_found; [reflexivity|].
  intros id peer Hp. unfold sample_mesh in Hp. simpl in Hp.
  destruct (decide (id = "ABCDEFGH")) as [->|Hne].
  - rewrite lookup_singleton_eq in Hp. injection Hp as <-. simpl. discriminate.
  - rewrite lookup_singleton_ne in Hp by done. discriminate.
Defined.

(* ------------------------------------------------------------------ *)
(** ** Routing *)

(** Claim C3 fails: [RoutePacket] decrements the TTL and sends without
    checking it again, so a directed packet from an unblocked sender to an
    unblocked recipient arriving with TTL 1 is sent on with TTL 0. *)
Theorem RoutePacket_relays_TTL_zero (sendFunc : BitchatPacket -> string -> option string)
    (r : Router) (packet : BitchatPacket) (knownPeers : list string) :
  TTL packet = 1 ->
  isBlocked r (string_of_bytes (SenderID packet)) = false ->
  RecipientID packet <> [] ->
  isBlocked r (string_of_bytes (RecipientID packet)) = false ->
  let '(packet', sends, _) := RoutePacket sendFunc r packet knownPeers in
  TTL packet' = 0 /\ sends = [(packet', string_of_bytes (RecipientID packet))].
Proof.
  intros Httl Hs Hr Hb. unfold RoutePacket. rewrite Hs, Httl. simpl.
  destruct (RecipientID packet) as [|b bs] eqn:E; [done|].
  rewrite Hb. simpl. done.
Qed.

Lemma RoutePacket_relays_TTL_zero_witness :
  let '(packet', sends, _) :=
    RoutePacket (fun _ _ => None) (NewRouter DefaultRoutingConfig) last_hop_packet [] in
  TTL packet' = 0 /\ sends = [(packet', "peer2")].
Proof.
  apply (RoutePacket_relays_TTL_zero (fun _ _ => None) (NewRouter DefaultRoutingConfig)
           last_hop_packet []); [reflexivity|reflexivity|discriminate|reflexivity].
Defined.

(* ------------------------------------------------------------------ *)
(** ** Fragmentation *)

Lemma length_Encode_exact (p : BitchatPacket) :
  length (Encode p) =
  (18 + length (SenderID p) + length (RecipientID p) + length (Payload p)
   + length (Signature p))%nat.
Proof. unfold Encode. rewrite !length_app, !length_be_bytes. simpl. lia. Qed.

Lemma send_fragments_all_sent (send : Destination -> list Z -> option string)
    (fragmentID : list Z) (packet : BitchatPacket) (data : list Z) (n : nat)
    (idxs : list nat) :
  (forall d b, send d b = None) ->
  send_fragments send fragmentID packet data n idxs =
  (map (fun i => (if isDirectedPacket packet then SendTo (RecipientID packet)
                  else Broadcast,
                  Encode (fragment_packet packet fragmentID data i n))) idxs, None).
Proof.
  intros Hs. induction idxs as [|i idxs IH]; simpl; [done|].
  rewrite Hs, IH. done.
Qed.

Lemma fragment_slice_chunk (data : list Z) (i : nat) :
  fragment_slice data i =
  take MaxFragmentPayloadSize (drop (i * MaxFragmentPayloadSize) data).
Proof.
  unfold fragment_slice. set (o := (i * MaxFragmentPayloadSize)%nat).
  destruct (decide (o + MaxFragmentPayloadSize <= length data)%nat) as [Hle|Hgt].
  - rewrite Nat.min_l by done. f_equal. lia.
  - rewrite Nat.min_r by lia.
    rewrite !take_ge; [done| |]; rewrite length_drop; lia.
Qed.

Lemma concat_fragment_slices (data : list Z) (n : nat) :
  concat (map (fragment_slice data) (seq 0 n)) =
  take (n * MaxFragmentPayloadSize) data.
Proof.
  induction n as [|n IH]; [done|].
  rewrite seq_S, map_app, concat_app, IH. cbn [map concat].
  rewrite app_nil_r, fragment_slice_chunk, take_take_drop. f_equal.
  unfold MaxFragmentPayloadSize. lia.
Qed.

Lemma fragment_count_covers (len : nat) :
  (len <= fragment_count len * MaxFragmentPayloadSize)%nat.
Proof.
  unfold fragment_count, MaxFragmentPayloadSize.
  pose proof (Nat.div_mod (len + 480 - 1) 480 ltac:(lia)).
  pose proof (Nat.mod_upper_bound (len + 480 - 1) 480 ltac:(lia)). lia.
Qed.

Lemma length_fragment_payload (fragmentID data : list Z) (i n : nat) :
  length (fragment_payload fragmentID data i n) = (6 + length (fragment_slice data i))%nat.
Proof.
  unfold fragment_payload. rewrite !length_app, length_take, length_app, repeat_length.
  cbn [length]. lia.
Qed.

(** What [sendFragmentedPacket] does when every send succeeds: it sends
    [fragment_count (length data)] encoded fragment packets, in index
    order, to the packet's recipient (or by broadcast); fragment [i] has
    type FragmentStart, FragmentContinue or FragmentEnd, payload
    [fragmentID(4) ‖ byte(i) ‖ byte(total) ‖ slice i]; the slices joined
    in index order give back [data]; and the encoded fragment [i] is
    [24 + |SenderID| + |RecipientID| + |slice i|] bytes long. *)
Lemma sendFragmentedPacket_structure (send : Destination -> list Z -> option string)
    (fragmentID : list Z) (packet : BitchatPacket) (data : list Z) :
  (forall d b, send d b = None) ->
  let n := fragment_count (length data) in
  sendFragmentedPacket send fragmentID packet data =
    (map (fun i => (if isDirectedPacket packet then SendTo (RecipientID packet)
                    else Broadcast,
                    Encode (fragment_packet packet fragmentID data i n))) (seq 0 n), None) /\
  concat (map (fragment_slice data) (seq 0 n)) = data /\
  (forall i, (i < n)%nat ->
     MsgType (fragment_packet packet fragmentID data i n) =
       (if decide (i = 0)%nat then MessageTypeFragmentStart
        else if decide (i = n - 1)%nat then MessageTypeFragmentEnd
        else MessageTypeFragmentContinue) /\
     Payload (fragment_packet packet fragmentID data i n) =
       take 4 (fragmentID ++ repeat 0 4) ++
       [to_byte (Z.of_nat i); to_byte (Z.of_nat n)] ++ fragment_slice data i /\
     length (Encode (fragment_packet packet fragmentID data i n)) =
       (24 + length (SenderID packet) + length (RecipientID packet)
        + length (fragment_slice data i))%nat).
Proof.
  intros Hs n. split; [|split].
  - unfold sendFragmentedPacket. by apply send_fragments_all_sent.
  - rewrite concat_fragment_slices. apply take_ge. apply fragment_count_covers.
  - intros i Hi. split; [done|]. split; [done|].
    rewrite length_Encode_exact. simpl. rewrite length_fragment_payload. lia.
Qed.

(** Claim C4 fails on its size bound: when every send succeeds, the
    first fragment handed to the adapter is the encoding of a packet
    carrying a full 480-byte slice plus the 6-byte fragment header, i.e.
    [24 + |SenderID| + |RecipientID| + 480] bytes; with sender and
    recipient ids longer than 8 bytes together, it exceeds 512 bytes. *)
Theorem sendFragmentedPacket_oversized (send : Destination -> list Z -> option string)
    (fragmentID : list Z) (packet : BitchatPacket) (data : list Z) :
  (forall d b, send d b = None) ->
  (MaxFragmentPayloadSize <= length data)%nat ->
  (8 < length (SenderID packet) + length (RecipientID packet))%nat ->
  exists dest frag rest,
    (sendFragmentedPacket send fragmentID packet data).1 = (dest, frag) :: rest /\
    length frag = (24 + length (SenderID packet) + length (RecipientID packet) + 480)%nat /\
    (MaxPacketSize < length frag)%nat.
Proof.
  intros Hs Hlen Hids.
  destruct (sendFragmentedPacket_structure send fragmentID packet data Hs)
    as (Hsent & _ & Hfrag).
  set (n := fragment_count (length data)) in *.
  assert (Hn : (0 < n)%nat).
  { subst n. unfold fragment_count, MaxFragmentPayloadSize in *.
    apply Nat.div_str_pos. lia. }
  destruct n as [|n'] eqn:En; [lia|].
  rewrite Hsent. simpl. do 3 eexists. split; [reflexivity|].
  destruct (Hfrag 0%nat ltac:(lia)) as (_ & _ & Hl). rewrite Hl.
  rewrite fragment_slice_chunk, Nat.mul_0_l, drop_0, length_take.
  unfold MaxFragmentPayloadSize, MaxPacketSize in *. split; lia.
Qed.

Lemma sendFragmentedPacket_oversized_witness :
  exists dest frag rest,
    (sendFragmentedPacket (fun _ _ => None) [1; 2; 3; 4] large_packet
       (Encode large_packet)).1 = (dest, frag) :: rest /\
    length frag = 520%nat /\ (MaxPacketSize < length frag)%nat.
Proof.
  destruct (sendFragmentedPacket_oversized (fun _ _ => None) [1; 2; 3; 4] large_packet
              (Encode large_packet) (fun _ _ => eq_refl)
              ltac:(vm_compute; lia) ltac:(vm_compute; lia))
    as (dest & frag & rest & H1 & H2 & H3).
  exists dest, frag, rest. split; [exact H1|]. split; [exact H2|exact H3].
Defined.

(* ------------------------------------------------------------------ *)
(** ** Peer key registration *)

(** Claim C6 fails on the key derivation: a blob of any length other
    than 96 is rejected with [ErrInvalidPublicKey] and the state is left
    unchanged; a 96-byte blob stores bytes 0-31, 32-63 and 64-95 as the
    X25519, signing and identity keys of the peer and derives a 32-byte
    session key from the X25519 shared secret with HKDF-SHA256, but passes
    ["bitchat-v1"] as the salt with an empty info, not as the info. *)
Theorem AddPeerPublicKey_salt_not_info (peerID : string) (publicKeyData : list Z)
    (es : EncryptionState) :
  (length publicKeyData <> 96%nat ->
   AddPeerPublicKey peerID publicKeyData es = (Some ErrInvalidPublicKey, es)) /\
  (length publicKeyData = 96%nat ->
   let '(err, es') := AddPeerPublicKey peerID publicKeyData es in
   let shared := X25519 (privateKey es) (take 32 publicKeyData) in
   err = None /\
   peerPublicKeys es' !! peerID = Some (take 32 publicKeyData) /\
   peerSigningKeys es' !! peerID = Some (take 32 (drop 32 publicKeyData)) /\
   peerIdentityKeys es' !! peerID = Some (drop 64 publicKeyData) /\
   sharedSecrets es' !! peerID =
     Some (HkdfSha256 shared (bytes_of_string "bitchat-v1") [] 32) /\
   sharedSecrets es' !! peerID <> Some (spec_session_key shared)).
Proof.
  split.
  - intros Hlen. unfold AddPeerPublicKey. by rewrite decide_True.
  - intros Hlen. unfold AddPeerPublicKey. rewrite decide_False by lia. simpl.
    rewrite !lookup_insert_eq.
    split; [done|]. split; [done|]. split; [done|]. split.
    + f_equal. apply take_ge. rewrite length_drop. lia.
    + split; [done|]. unfold spec_session_key. by intros [=].
Qed.

Lemma AddPeerPublicKey_salt_not_info_witness :
  let '(err, es') := AddPeerPublicKey "peer1" sample_bundle sample_encryption in
  let shared := X25519 (privateKey sample_encryption) (take 32 sample_bundle) in
  err = None /\
  peerPublicKeys es' !! "peer1" = Some (take 32 sample_bundle) /\
  peerSigningKeys es' !! "peer1" = Some (take 32 (drop 32 sample_bundle)) /\
  peerIdentityKeys es' !! "peer1" = Some (drop 64 sample_bundle) /\
  sharedSecrets es' !! "peer1" =
    Some (HkdfSha256 shared (bytes_of_string "bitchat-v1") [] 32) /\
  sharedSecrets es' !! "peer1" <> Some (spec_session_key shared).
Proof.
  apply (proj2 (AddPeerPublicKey_salt_not_info "peer1" sample_bundle sample_encryption)).
  vm_compute. reflexivity.
Defined.

(* ------------------------------------------------------------------ *)
(** ** Decoding with trailing bytes *)

Lemma Decode_Encode_app (p : BitchatPacket) (rest : list Z) :
  0 <= Timestamp p < 2 ^ 64 ->
  (length (SenderID p) < 256)%nat ->
  (length (RecipientID p) < 256)%nat ->
  (length (Signature p) < 256)%nat ->
  Z.of_nat (length (Payload p)) < 2 ^ 32 ->
  Decode (Encode p ++ rest) =
  Some (mkPacket (Version p) (MsgType p) (SenderID p) (RecipientID p)
          (Timestamp p) (Payload p) (Signature p) (TTL p) "" []).
Proof.
  intros Hts Hs Hr Hsig Hpl.
  unfold Decode. rewrite decide_False
    by (rewrite length_app; pose proof (length_Encode p); lia).
  unfold Encode. rewrite <- !app_assoc. dsimpl.
  rewrite to_byte_small by done.
  rewrite ReadField_app by done. dsimpl.
  rewrite to_byte_small by done.
  rewrite ReadField_app by done. dsimpl.
  rewrite ReadBE_app by (simpl; lia). dsimpl.
  rewrite ReadBE_app by (rewrite Z.mod_small by lia; simpl; lia). dsimpl.
  rewrite Z.mod_small by lia.
  rewrite ReadField_app by done. dsimpl.
  rewrite to_byte_small by done.
  rewrite ReadField_app by done. simpl. done.
Qed.

(* ------------------------------------------------------------------ *)
(** ** Fragment reassembly *)

Lemma AddFragment_flags (now : Z) (fragmentID : list Z) (index total : Z)
    (data : list Z) (isStart isEnd : bool) (fm : FragmentManager) :
  AddFragment now fragmentID index total data isStart isEnd fm =
  AddFragment now fragmentID index total data false false fm.
Proof. done. Qed.

(** Receiving the encoding of fragment [i] adds its slice under the
    fragment id, index [i] and total [n]. *)
Lemma handleReceivedData_fragment (now : Z) (packet : BitchatPacket)
    (fragmentID data : list Z) (i n : nat) (fm : FragmentManager) :
  length fragmentID = 4%nat -> (i < n)%nat -> (n < 256)%nat ->
  0 <= Timestamp packet < 2 ^ 64 ->
  (length (SenderID packet) < 256)%nat -> (length (RecipientID packet) < 256)%nat ->
  handleReceivedData now (Encode (fragment_packet packet fragmentID data i n)) fm =
  let r := AddFragment now fragmentID (Z.of_nat i) (Z.of_nat n)
             (fragment_slice data i) false false fm in
  (r.2, if r.1.1 then match Decode r.1.2 with Some q => [q] | None => [] end else []).
Proof.
  intros Hid Hi Hn Hts Hs Hr.
  assert (Hsl : (length (fragment_slice data i) <= MaxFragmentPayloadSize)%nat).
  { rewrite fragment_slice_chunk, length_take. lia. }
  unfold handleReceivedData.
  rewrite <- (app_nil_r (Encode _)), Decode_Encode_app; cycle 1.
  { done. } { done. } { done. } { simpl. lia. }
  { simpl. rewrite length_fragment_payload. unfold MaxFragmentPayloadSize in Hsl. lia. }
  assert (Hf : forall t, t = fragment_type i n ->
            isFragmentPacket (mkPacket (Version packet) t (SenderID packet)
              (RecipientID packet) (Timestamp packet)
              (fragment_payload fragmentID data i n) [] (TTL packet) "" []) = true).
  { intros t ->. unfold isFragmentPacket, fragment_type.
    repeat case_decide; done. }
  unfold fragment_packet.
  cbn [Version MsgType SenderID RecipientID Timestamp Payload Signature TTL ID Nonce].
  rewrite Hf by done.
  unfold handleFragmentPacket. cbn [Payload MsgType].
  rewrite decide_False by (rewrite length_fragment_payload; lia).
  destruct fragmentID as [|a [|b [|c [|d [|? ?]]]]]; simpl in Hid; try lia.
  unfold fragment_payload. cbn [take drop nth app repeat].
  rewrite !to_byte_small by lia.
  rewrite AddFragment_flags, drop_0.
  destruct (AddFragment _ _ _ _ _ _ _ _) as [[[|] r] fm']. all: simpl; try done; by destruct (Decode r).
Qed.

Lemma forget_fragments_keeps (key : string) (ids : list string) (fm : FragmentManager) :
  key ∉ ids ->
  let fm' := foldl forget_fragments fm ids in
  fragments fm' !! key = fragments fm !! key /\
  totalFrags fm' !! key = totalFrags fm !! key /\
  startTime fm' !! key = startTime fm !! key.
Proof.
  revert fm. induction ids as [|id ids IH]; intros fm Hk; simpl; [done|].
  rewrite elem_of_cons in Hk.
  destruct (IH (forget_fragments fm id)) as (H1 & H2 & H3); [tauto|].
  rewrite H1, H2, H3. unfold forget_fragments. simpl.
  rewrite !lookup_delete_ne by (intros ->; tauto). done.
Qed.

(** [cleanupOldFragments] keeps an id started at most 30 s before. *)
Lemma cleanupOldFragments_keeps (now t0 : Z) (key : string) (fm : FragmentManager) :
  startTime fm !! key = Some t0 -> now - t0 <= 30 * Second ->
  let fm' := cleanupOldFragments now fm in
  fragments fm' !! key = fragments fm !! key /\
  totalFrags fm' !! key = totalFrags fm !! key /\
  startTime fm' !! key = startTime fm !! key.
Proof.
  intros Hst Hnow. unfold cleanupOldFragments. apply forget_fragments_keeps.
  rewrite list_elem_of_fmap. intros ([k v] & Hk & Hin). simpl in Hk. subst k.
  rewrite list_elem_of_filter, elem_of_map_to_list in Hin. simpl in Hin.
  destruct Hin as [Hgt Hl]. rewrite Hst in Hl. injection Hl as <-. lia.
Qed.

Lemma received_fragments_keys (data : list Z) (l : list nat) :
  ((fun i => (Z.of_nat i, fragment_slice data i)) <$> l).*1 = Z.of_nat <$> l.
Proof. rewrite <- list_fmap_compose. reflexivity. Qed.

Lemma size_received_fragments (data : list Z) (l : list nat) :
  NoDup l -> size (received_fragments data l) = length l.
Proof.
  intros Hnd. unfold received_fragments. rewrite map_size_list_to_map.
  - by rewrite length_fmap.
  - rewrite received_fragments_keys. apply NoDup_fmap_2; [apply _|exact Hnd].
Qed.

Lemma lookup_received_fragments (data : list Z) (l : list nat) (j : nat) :
  NoDup l -> j ∈ l ->
  received_fragments data l !! Z.of_nat j = Some (fragment_slice data j).
Proof.
  intros Hnd Hj. unfold received_fragments.
  apply elem_of_list_to_map.
  - rewrite received_fragments_keys. apply NoDup_fmap_2; [apply _|exact Hnd].
  - apply list_elem_of_fmap. by exists j.
Qed.

(** Once every index of [seq 0 n] has arrived, in whatever order,
    [reassemblePacket] gives back [data]. *)
Lemma reassemblePacket_received (data : list Z) (l : list nat) :
  l ≡ₚ seq 0 (fragment_count (length data)) ->
  reassemblePacket (received_fragments data l)
    (Z.of_nat (fragment_count (length data))) = data.
Proof.
  intros Hp. set (n := fragment_count (length data)) in *.
  assert (Hnd : NoDup l) by (rewrite Hp; apply NoDup_seq).
  unfold reassemblePacket, seqZ. rewrite Nat2Z.id.
  transitivity (concat (map (fragment_slice data) (seq 0 n))).
  - f_equal. assert (Hall : forall j, j ∈ seq 0 n -> j ∈ l) by (intros j; by rewrite Hp).
    clear Hp. induction (seq 0 n) as [|j js IH]; simpl; [done|].
    rewrite Z.add_0_r, lookup_received_fragments by (done || (apply Hall; set_solver)).
    simpl. f_equal. apply IH. intros k Hk. apply Hall. set_solver.
  - rewrite concat_fragment_slices. apply take_ge. apply fragment_count_covers.
Qed.

Lemma AddFragment_received (t t0 : Z) (fragmentID data : list Z) (i n : nat)
    (done : list nat) (fm : FragmentManager) :
  NoDup (i :: done) -> (length (i :: done) <= n)%nat -> t - t0 <= 30 * Second ->
  (match done with
   | [] => fragments fm !! hex_EncodeToString fragmentID = None /\ t = t0
   | _ => fragments_pending (hex_EncodeToString fragmentID) (Z.of_nat n) t0
            (received_fragments data done) fm
   end) ->
  let r := AddFragment t fragmentID (Z.of_nat i) (Z.of_nat n) (fragment_slice data i)
             false false fm in
  if decide (length (i :: done) = n) then
    r.1 = (true, reassemblePacket (received_fragments data (i :: done)) (Z.of_nat n)) /\
    fragments r.2 !! hex_EncodeToString fragmentID = None
  else
    r.1.1 = false /\
    fragments_pending (hex_EncodeToString fragmentID) (Z.of_nat n) t0
      (received_fragments data (i :: done)) r.2.
Proof.
  intros Hnd Hlen Ht Hst. set (key := hex_EncodeToString fragmentID) in *.
  pose proof (size_received_fragments data (i :: done) Hnd) as Hsize.
  assert (Hfm2 : exists fm2,
            fragments_pending key (Z.of_nat n) t0 (received_fragments data (i :: done)) fm2 /\
            AddFragment t fragmentID (Z.of_nat i) (Z.of_nat n) (fragment_slice data i)
              false false fm =
            if decide (Z.of_nat (size (received_fragments data (i :: done))) = Z.of_nat n)
            then (true, reassemblePacket (received_fragments data (i :: done)) (Z.of_nat n),
                  forget_fragments fm2 key)
            else (false, [], cleanupOldFragments t fm2)).
  { unfold AddFragment. fold key. destruct done as [|d ds].
    - destruct Hst as [Hnone ->]. rewrite Hnone. cbn [fragments startTime totalFrags].
      rewrite !lookup_insert_eq. simpl default.
      eexists. split; [|reflexivity].
      unfold fragments_pending. simpl. rewrite !lookup_insert_eq. done.
    - destruct Hst as (Hf & Htot & Hs). rewrite Hf.
      cbn [fragments startTime totalFrags]. rewrite Hf, Htot.
      simpl default. eexists. split; [|reflexivity].
      unfold fragments_pending. simpl. rewrite lookup_insert_eq. done. }
  destruct Hfm2 as (fm2 & Hp & ->). rewrite Hsize. simpl.
  destruct (decide (S (length done) = n)) as [Heq|Hne].
  - rewrite decide_True by lia. split; [done|].
    unfold forget_fragments. simpl. apply lookup_delete_eq.
  - rewrite decide_False by lia. split; [done|].
    destruct Hp as (Hf & Htot & Hs).
    destruct (cleanupOldFragments_keeps t t0 key fm2 Hs Ht) as (H1 & H2 & H3).
    unfold fragments_pending. simpl. rewrite H1, H2, H3. done.
Qed.

Lemma send_fragments_ok (send : Destination -> list Z -> option string)
    (fragmentID : list Z) (packet : BitchatPacket) (data : list Z) (n : nat)
    (idxs : list nat) (sent : list (Destination * list Z)) :
  send_fragments send fragmentID packet data n idxs = (sent, None) ->
  sent = map (fun i => (if isDirectedPacket packet then SendTo (RecipientID packet)
                        else Broadcast,
                        Encode (fragment_packet packet fragmentID data i n))) idxs.
Proof.
  revert sent. induction idxs as [|i idxs IH]; intros sent; simpl.
  - by intros [= <-].
  - destruct (send _ _); [by intros [=]|].
    destruct (send_fragments _ _ _ _ _ idxs) as [sent' r] eqn:E.
    intros [= <- ->]. f_equal. by apply IH.
Qed.

(** Receiving fragments of [data] while the reassembly of their id is
    pending with the indices [done]: once the remaining indices have
    arrived, the decoding of [data] has been pushed and the id is gone. *)
Lemma receive_all_fragments (packet : BitchatPacket) (fragmentID data : list Z) :
  length fragmentID = 4%nat ->
  (fragment_count (length data) < 256)%nat ->
  0 <= Timestamp packet < 2 ^ 64 ->
  (length (SenderID packet) < 256)%nat -> (length (RecipientID packet) < 256)%nat ->
  forall (arrivals : list (Z * list Z)) (idxs done : list nat) (fm : FragmentManager)
    (t0 : Z),
  map snd arrivals =
    map (fun i => Encode (fragment_packet packet fragmentID data i
                            (fragment_count (length data)))) idxs ->
  done ++ idxs ≡ₚ seq 0 (fragment_count (length data)) ->
  (length done < fragment_count (length data))%nat ->
  (forall a, a ∈ arrivals -> a.1 - t0 <= 30 * Second) ->
  (match done with
   | [] => fragments fm !! hex_EncodeToString fragmentID = None /\
           head (map fst arrivals) = Some t0
   | _ => fragments_pending (hex_EncodeToString fragmentID)
            (Z.of_nat (fragment_count (length data))) t0 (received_fragments data done) fm
   end) ->
  (receive_all fm arrivals).2 = match Decode data with Some q => [q] | None => [] end /\
  fragments (receive_all fm arrivals).1 !! hex_EncodeToString fragmentID = None.
Proof.
  intros Hid Hn Hts Hs Hr. set (n := fragment_count (length data)) in *.
  intros arrivals. induction arrivals as [|[t b] arr IH];
    intros idxs done fm t0 Hmap Hperm Hlt Htime Hst.
  - destruct idxs; [|discriminate].
    apply Permutation_length in Hperm. rewrite app_nil_r, length_seq in Hperm. lia.
  - destruct idxs as [|i idxs]; [discriminate|].
    simpl in Hmap. injection Hmap as -> Hmap.
    assert (Hperm' : (i :: done) ++ idxs ≡ₚ seq 0 n).
    { rewrite <- Hperm. simpl. apply Permutation_middle. }
    assert (Hi : (i < n)%nat).
    { assert (i ∈ seq 0 n) as Hin by (rewrite <- Hperm'; set_solver).
      apply elem_of_seq in Hin. lia. }
    assert (Hnd : NoDup (i :: done)).
    { assert (NoDup ((i :: done) ++ idxs)) as Hnd
        by (rewrite Hperm'; apply NoDup_seq).
      apply NoDup_app in Hnd. tauto. }
    pose proof (Permutation_length Hperm') as Hlen.
    rewrite length_app, length_seq in Hlen.
    assert (Ht : t - t0 <= 30 * Second) by (apply (Htime (t, Encode (fragment_packet packet fragmentID data i n))); set_solver).
    cbn [receive_all]. rewrite handleReceivedData_fragment by done.
    pose proof (AddFragment_received t t0 fragmentID data i n done fm Hnd
                  ltac:(lia) Ht) as Hstep.
    destruct (AddFragment t fragmentID (Z.of_nat i) (Z.of_nat n) (fragment_slice data i)
                false false fm) as [[c r] fm'].
    cbn zeta in Hstep.
    destruct (decide (length (i :: done) = n)) as [Heq|Hne].
    + destruct Hstep as [Hc Hf]; [by destruct done as [|d ds]; [destruct Hst as [? [=]]|]|].
      injection Hc as -> ->.
      destruct idxs; [|simpl in Heq, Hlen; lia].
      destruct arr; [|discriminate]. simpl.
      rewrite reassemblePacket_received by (by rewrite app_nil_r in Hperm').
      split; [by rewrite app_nil_r|done].
    + destruct Hstep as [Hc Hp]; [by destruct done as [|d ds]; [destruct Hst as [? [=]]|]|].
      simpl in Hc. subst c.
      assert (Hlt' : (length (i :: done) < n)%nat) by lia.
      specialize (IH idxs (i :: done) fm' t0 Hmap Hperm' Hlt'
                    ltac:(intros a Ha; apply Htime; set_solver) Hp).
      simpl. destruct (receive_all fm' arr) as [fm2 out2]. exact IH.
Qed.

(** The fragments [sendFragmentedPacket] sent, received in any order
    within 30 seconds of each other by a manager with no reassembly
    pending under their id, push exactly the decoding of [data] on
    [incomingMessages] (one packet, or none if [data] does not decode),
    and leave nothing pending under that id. *)
Theorem sendFragmentedPacket_reassembled (send : Destination -> list Z -> option string)
    (fragmentID : list Z) (packet : BitchatPacket) (data : list Z)
    (sent : list (Destination * list Z)) (arrivals : list (Z * list Z))
    (fm : FragmentManager) :
  sendFragmentedPacket send fragmentID packet data = (sent, None) ->
  length fragmentID = 4%nat ->
  (fragment_count (length data) < 256)%nat ->
  0 <= Timestamp packet < 2 ^ 64 ->
  (length (SenderID packet) < 256)%nat -> (length (RecipientID packet) < 256)%nat ->
  map snd arrivals ≡ₚ map snd sent ->
  (forall a b, a ∈ arrivals -> b ∈ arrivals -> a.1 - b.1 <= 30 * Second) ->
  fragments fm !! hex_EncodeToString fragmentID = None ->
  (receive_all fm arrivals).2 = match Decode data with Some q => [q] | None => [] end /\
  fragments (receive_all fm arrivals).1 !! hex_EncodeToString fragmentID = None.
Proof.
  intros Hsend Hid Hn Hts Hs Hr Hperm Htime Hfm.
  set (n := fragment_count (length data)) in *.
  unfold sendFragmentedPacket in Hsend. apply send_fragments_ok in Hsend. subst sent.
  rewrite map_map in Hperm.
  assert (Hperm' : map snd arrivals ≡ₚ
            map (fun i => Encode (fragment_packet packet fragmentID data i n)) (seq 0 n))
    by exact Hperm.
  destruct (Permutation_map_inv _ _ Hperm') as (l3 & Hl3 & Hp3).
  destruct arrivals as [|[t0 b] arr].
  - destruct l3; [|discriminate].
    symmetry in Hp3. apply Permutation_nil in Hp3.
    apply (f_equal length) in Hp3. rewrite length_seq in Hp3.
    assert (data = []) as ->.
    { destruct data as [|z data]; [done|]. exfalso. subst n.
      unfold fragment_count, MaxFragmentPayloadSize in Hp3. simpl length in Hp3.
      apply Nat.div_small_iff in Hp3; lia. }
    done.
  - assert (Hlt : (0 < n)%nat).
    { destruct l3 as [|j l3]; [discriminate|].
      apply Permutation_length in Hp3. rewrite length_seq in Hp3. simpl in Hp3. lia. }
    apply (receive_all_fragments packet fragmentID data Hid Hn Hts Hs Hr
             ((t0, b) :: arr) l3 [] fm t0).
    + exact Hl3.
    + simpl. by symmetry.
    + simpl. lia.
    + intros a Ha. apply (Htime a (t0, b) Ha). set_solver.
    + split; done.
Qed.

Lemma sendFragmentedPacket_reassembled_witness :
  (receive_all NewFragmentManager reversed_arrivals).2 =
    match Decode (Encode large_packet) with Some q => [q] | None => [] end /\
  fragments (receive_all NewFragmentManager reversed_arrivals).1
    !! hex_EncodeToString [1; 2; 3; 4] = None.
Proof.
  apply (sendFragmentedPacket_reassembled (fun _ _ => None) [1; 2; 3; 4] large_packet
           (Encode large_packet) large_transmissions).
  - vm_compute. reflexivity.
  - reflexivity.
  - vm_compute. lia.
  - vm_compute. split; congruence.
  - vm_compute. lia.
  - vm_compute. lia.
  - unfold reversed_arrivals. rewrite map_map, map_rev. cbn beta.
    apply Permutation_rev.
  - intros a b Ha Hb. unfold reversed_arrivals in Ha, Hb.
    apply list_elem_of_In, in_map_iff in Ha as (x & <- & _).
    apply list_elem_of_In, in_map_iff in Hb as (y & <- & _). simpl. unfold Second. lia.
  - reflexivity.
Defined.

(** End to end: a packet whose type is not a fragment type, sent with
    [SendPacket] with every send succeeding, and whose transmissions are
    received in any order within 30 seconds of each other, is pushed on
    [incomingMessages] exactly once, equal to the sent packet in every
    wire field; this holds both when it goes out whole and when it is
    fragmented (at most 255 fragments, no reassembly pending under the
    fragment id). *)
Theorem SendPacket_delivered (send : Destination -> list Z -> option string)
    (fragmentID : list Z) (packet : BitchatPacket)
    (sent : list (Destination * list Z)) (arrivals : list (Z * list Z))
    (fm : FragmentManager) :
  SendPacket send fragmentID packet = (sent, None) ->
  isFragmentPacket packet = false ->
  0 <= Timestamp packet < 2 ^ 64 ->
  (length (SenderID packet) < 256)%nat ->
  (length (RecipientID packet) < 256)%nat ->
  (length (Signature packet) < 256)%nat ->
  Z.of_nat (length (Payload packet)) < 2 ^ 32 ->
  length fragmentID = 4%nat ->
  (fragment_count (length (Encode packet)) < 256)%nat ->
  fragments fm !! hex_EncodeToString fragmentID = None ->
  map snd arrivals ≡ₚ map snd sent ->
  (forall a b, a ∈ arrivals -> b ∈ arrivals -> a.1 - b.1 <= 30 * Second) ->
  (receive_all fm arrivals).2 =
    [mkPacket (Version packet) (MsgType packet) (SenderID packet) (RecipientID packet)
       (Timestamp packet) (Payload packet) (Signature packet) (TTL packet) "" []].
Proof.
  intros Hsend Hnf Hts Hs Hr Hsig Hpl Hid Hn Hfm Hperm Htime.
  pose proof (Decode_Encode_app packet [] Hts Hs Hr Hsig Hpl) as Hdec.
  rewrite app_nil_r in Hdec.
  unfold SendPacket in Hsend. case_decide.
  - destruct (sendFragmentedPacket_reassembled send fragmentID packet (Encode packet) sent
                arrivals fm Hsend Hid Hn Hts Hs Hr Hperm Htime Hfm) as [Hout _].
    by rewrite Hout, Hdec.
  - destruct (send _ _) eqn:Hsnd; [discriminate|]. injection Hsend as <-.
    simpl in Hperm. symmetry in Hperm. apply Permutation_length_1_inv in Hperm.
    destruct arrivals as [|[t d] [|? ?]]; try discriminate.
    simpl in Hperm. injection Hperm as ->.
    cbn [receive_all]. unfold handleReceivedData. rewrite Hdec.
    unfold isFragmentPacket in *. cbn [MsgType]. rewrite Hnf. done.
Qed.

Lemma SendPacket_delivered_witness :
  (receive_all NewFragmentManager reversed_arrivals).2 =
    [mkPacket (Version large_packet) (MsgType large_packet) (SenderID large_packet)
       (RecipientID large_packet) (Timestamp large_packet) (Payload large_packet)
       (Signature large_packet) (TTL large_packet) "" []].
Proof.
  apply (SendPacket_delivered (fun _ _ => None) [1; 2; 3; 4] large_packet
           large_transmissions reversed_arrivals NewFragmentManager).
  - reflexivity.
  - reflexivity.
  - vm_compute. split; congruence.
  - vm_compute. lia.
  - vm_compute. lia.
  - vm_compute. lia.
  - vm_compute. reflexivity.
  - reflexivity.
  - vm_compute. lia.
  - reflexivity.
  - unfold reversed_arrivals. rewrite map_map, map_rev. cbn beta.
    apply Permutation_rev.
  - intros a b Ha Hb. unfold reversed_arrivals in Ha, Hb.
    apply list_elem_of_In, in_map_iff in Ha as (x & <- & _).
    apply list_elem_of_In, in_map_iff in Hb as (y & <- & _). simpl. unfold Second. lia.
Defined.

(* ------------------------------------------------------------------ *)
(** ** What [Decode] accepts *)

Lemma ReadByte_Some (buf rest : list Z) (b : Z) :
  ReadByte buf = Some (b, rest) -> buf = b :: rest.
Proof. destruct buf; simpl; congruence. Qed.

Lemma ReadByte_extend (buf rest e : list Z) (b : Z) :
  ReadByte buf = Some (b, rest) -> ReadByte (buf ++ e) = Some (b, rest ++ e).
Proof. destruct buf; simpl; congruence. Qed.

Lemma ReadFull_Some (n : nat) (buf a rest : list Z) :
  ReadFull n buf = Some (a, rest) -> buf = a ++ rest /\ length a = n.
Proof.
  unfold ReadFull. case_decide; [|done]. intros [= <- <-].
  rewrite take_drop, length_take. split; [done|lia].
Qed.

Lemma ReadFull_extend (n : nat) (buf a rest e : list Z) :
  ReadFull n buf = Some (a, rest) -> ReadFull n (buf ++ e) = Some (a, rest ++ e).
Proof.
  intros H. destruct (ReadFull_Some _ _ _ _ H) as [-> <-].
  rewrite <- app_assoc. apply ReadFull_app.
Qed.

Lemma ReadBE_Some (n : nat) (buf rest : list Z) (v : Z) :
  ReadBE n buf = Some (v, rest) ->
  exists a, buf = a ++ rest /\ length a = n /\ v = be_value a.
Proof.
  unfold ReadBE. destruct (ReadFull n buf) as [[a r]|] eqn:E; simpl; [|done].
  intros [= <- <-]. apply ReadFull_Some in E as [-> <-]. by exists a.
Qed.

Lemma ReadBE_extend (n : nat) (buf rest e : list Z) (v : Z) :
  ReadBE n buf = Some (v, rest) -> ReadBE n (buf ++ e) = Some (v, rest ++ e).
Proof.
  unfold ReadBE. destruct (ReadFull n buf) as [[a r]|] eqn:E; simpl; [|done].
  intros [= <- <-]. by rewrite (ReadFull_extend _ _ _ _ _ E).
Qed.

Lemma ReadField_Some (len : Z) (buf a rest : list Z) :
  ReadField len buf = Some (a, rest) ->
  buf = a ++ rest /\ ((len <= 0 /\ a = []) \/ (0 < len /\ Z.of_nat (length a) = len)).
Proof.
  unfold ReadField. case_decide.
  - intros E. apply ReadFull_Some in E as [-> Hl]. split; [done|right].
    rewrite Hl, Z2Nat.id; lia.
  - intros [= <- <-]. split; [done|left; split; [lia|done]].
Qed.

Lemma ReadField_extend (len : Z) (buf a rest e : list Z) :
  ReadField len buf = Some (a, rest) -> ReadField len (buf ++ e) = Some (a, rest ++ e).
Proof.
  unfold ReadField. case_decide.
  - apply ReadFull_extend.
  - congruence.
Qed.

(** Takes the next read of [Decode] in [H], and the same read in the goal
    on the extended buffer. *)
Ltac read_step H :=
  let E := fresh "E" in
  first
    [ lazymatch type of H with context [ReadByte ?b] =>
        destruct (ReadByte b) as [[? ?]|] eqn:E; [|discriminate H];
        try rewrite (ReadByte_extend _ _ _ _ E) end
    | lazymatch type of H with context [ReadBE ?n ?b] =>
        destruct (ReadBE n b) as [[? ?]|] eqn:E; [|discriminate H];
        try rewrite (ReadBE_extend _ _ _ _ _ E) end
    | lazymatch type of H with context [ReadField ?n ?b] =>
        destruct (ReadField n b) as [[? ?]|] eqn:E; [|discriminate H];
        try rewrite (ReadField_extend _ _ _ _ _ E) end ];
  simpl in H |- *.

Lemma Decode_extend (data e : list Z) (q : BitchatPacket) :
  Decode data = Some q -> Decode (data ++ e) = Some q.
Proof.
  unfold Decode. case_decide as Hlen; [done|].
  rewrite decide_False by (rewrite length_app; lia).
  intros H. do 12 read_step H. exact H.
Qed.

Lemma Decode_Some_inv (data : list Z) (q : BitchatPacket) :
  Decode data = Some q ->
  exists ls lr tsb plb lsig rest,
    data = [Version q; MsgType q; ls] ++ SenderID q ++ [lr] ++ RecipientID q ++
           tsb ++ plb ++ Payload q ++ [lsig] ++ Signature q ++ [TTL q] ++ rest /\
    length tsb = 8%nat /\ length plb = 4%nat /\ Timestamp q = be_value tsb /\
    ((ls <= 0 /\ SenderID q = []) \/ (0 < ls /\ Z.of_nat (length (SenderID q)) = ls)) /\
    ((lr <= 0 /\ RecipientID q = []) \/
     (0 < lr /\ Z.of_nat (length (RecipientID q)) = lr)) /\
    ((be_value plb <= 0 /\ Payload q = []) \/
     (0 < be_value plb /\ Z.of_nat (length (Payload q)) = be_value plb)) /\
    ((lsig <= 0 /\ Signature q = []) \/
     (0 < lsig /\ Z.of_nat (length (Signature q)) = lsig)) /\
    ID q = "" /\ Nonce q = [].
Proof.
  unfold Decode. case_decide as Hlen; [done|].
  intros H. do 12 read_step H. injection H as <-. simpl.
  apply ReadByte_Some in E, E0, E1, E3, E8, E10.
  apply ReadField_Some in E2 as [-> Hs], E4 as [-> Hr], E7 as [-> Hp], E9 as [-> Hsig].
  apply ReadBE_Some in E5 as (tsb & -> & Hts & ->), E6 as (plb & -> & Hpl & ->).
  subst. exists z1, z2, tsb, plb, z5, l14. simpl.
  repeat split; done.
Qed.

Lemma Decode_length (data : list Z) (q : BitchatPacket) :
  Decode data = Some q -> (length (Encode q) <= length data)%nat.
Proof.
  intros (ls & lr & tsb & plb & lsig & rest & -> & Hts & Hpl & _) % Decode_Some_inv.
  unfold Encode. rewrite !length_app, !length_be_bytes, Hts, Hpl. simpl. lia.
Qed.

Lemma be_value_bound (l : list Z) :
  bytes_ok l -> 0 <= be_value l < 256 ^ Z.of_nat (length l).
Proof.
  induction l as [|b l IH] using rev_ind; intros Hl.
  - unfold be_value. simpl. lia.
  - apply Forall_app in Hl as [Hl Hb]. rewrite Forall_singleton in Hb.
    unfold byte_ok in Hb. specialize (IH Hl).
    rewrite be_value_snoc, length_app. simpl length.
    rewrite Nat2Z.inj_add, Z.pow_add_r by lia. change (256 ^ Z.of_nat 1) with 256. nia.
Qed.

Lemma be_bytes_be_value (l : list Z) :
  bytes_ok l -> be_bytes (length l) (be_value l) = l.
Proof.
  induction l as [|b l IH] using rev_ind; intros Hl; [done|].
  apply Forall_app in Hl as [Hl Hb]. rewrite Forall_singleton in Hb.
  unfold byte_ok in Hb. rewrite be_value_snoc, length_app, Nat.add_comm. simpl.
  rewrite Z.div_add_l, Z.div_small, Z.add_0_r, IH by (done || lia).
  f_equal. f_equal. rewrite Z.add_comm, Z.mod_add, Z.mod_small; lia.
Qed.

Lemma field_length_byte (len : Z) (a : list Z) :
  byte_ok len ->
  ((len <= 0 /\ a = []) \/ (0 < len /\ Z.of_nat (length a) = len)) ->
  to_byte (Z.of_nat (length a)) = len.
Proof.
  unfold byte_ok, to_byte. intros Hb [[? ->]|[? <-]]; simpl.
  - change (Z.of_nat 0 mod 256) with 0. lia.
  - apply Z.mod_small. lia.
Qed.

(** [Decode] reads a prefix: on bytes, every input it accepts is the
    encoding of the packet it returns, followed by bytes it ignores. *)
Theorem Decode_accepts_encoding (data : list Z) (q : BitchatPacket) :
  bytes_ok data -> Decode data = Some q ->
  exists rest, data = Encode q ++ rest.
Proof.
  intros Hok (ls & lr & tsb & plb & lsig & rest & -> & Hts & Hpl & Ht & Hs & Hr & Hp & Hsig & _)
    % Decode_Some_inv.
  exists rest.
  unfold bytes_ok in Hok. rewrite !Forall_app, !Forall_cons in Hok.
  destruct Hok as ((_ & _ & Hls & _) & _ & (Hlr & _) & _ & Htsb & Hplb & _ & (Hlsig & _) & _).
  unfold Encode. rewrite !(field_length_byte _ _ Hls Hs), (field_length_byte _ _ Hlr Hr),
    (field_length_byte _ _ Hlsig Hsig).
  rewrite Ht, <- Hts, be_bytes_be_value by done.
  pose proof (be_value_bound plb Hplb) as Hb. rewrite Hpl in Hb.
  replace (Z.of_nat (length (Payload q)) mod 2 ^ 32) with (be_value plb).
  - rewrite <- Hpl, be_bytes_be_value by done. rewrite <- !app_assoc. done.
  - destruct Hp as [[? ->]|[? ->]]; simpl in *; rewrite Z.mod_small; lia.
Qed.

Lemma Encode_wire_fields (p : BitchatPacket) :
  Encode (mkPacket (Version p) (MsgType p) (SenderID p) (RecipientID p)
            (Timestamp p) (Payload p) (Signature p) (TTL p) "" []) = Encode p.
Proof. by destruct p. Qed.

Lemma Decode_accepts_encoding_witness :
  exists rest, Encode chat_packet ++ [0; 0] = Encode chat_packet ++ rest.
Proof.
  apply (Decode_accepts_encoding (Encode chat_packet ++ [0; 0]) chat_packet).
  - unfold bytes_ok, byte_ok. apply (bool_decide_unpack _). vm_compute. reflexivity.
  - vm_compute. reflexivity.
Defined.

(** Bytes after a decodable prefix are never read: appending anything to
    an accepted input gives the same packet. *)
Theorem Decode_ignores_trailing_bytes (data e : list Z) (q : BitchatPacket) :
  Decode data = Some q -> Decode (data ++ e) = Some q.
Proof. apply Decode_extend. Qed.

Lemma Decode_ignores_trailing_bytes_witness :
  Decode (Encode chat_packet ++ [42]) = Some chat_packet.
Proof.
  apply (Decode_ignores_trailing_bytes (Encode chat_packet) [42] chat_packet).
  vm_compute. reflexivity.
Defined.

(** Every proper prefix of the encoding of a packet within the codec's
    bounds is rejected. *)
Theorem Decode_rejects_truncated (p : BitchatPacket) (k : nat) :
  0 <= Timestamp p < 2 ^ 64 ->
  (length (SenderID p) < 256)%nat ->
  (length (RecipientID p) < 256)%nat ->
  (length (Signature p) < 256)%nat ->
  Z.of_nat (length (Payload p)) < 2 ^ 32 ->
  (k < length (Encode p))%nat ->
  Decode (take k (Encode p)) = None.
Proof.
  intros Hts Hs Hr Hsig Hpl Hk.
  destruct (Decode (take k (Encode p))) as [q|] eqn:Hd; [exfalso|done].
  pose proof (Decode_length _ _ Hd) as Hlen. rewrite length_take in Hlen.
  apply (Decode_extend _ (drop k (Encode p))) in Hd. rewrite take_drop in Hd.
  rewrite <- (app_nil_r (Encode p)), Decode_Encode_app in Hd by done.
  injection Hd as <-. rewrite Encode_wire_fields in Hlen. lia.
Qed.

Lemma Decode_rejects_truncated_witness :
  Decode (take 20 (Encode chat_packet)) = None.
Proof.
  apply Decode_rejects_truncated; vm_compute; first [lia | reflexivity | split; congruence].
Defined.

(** [Decode] checks for 13 bytes, yet no input shorter than 18 bytes (the
    size of a packet with empty fields) is accepted. *)
Theorem Decode_rejects_short (data : list Z) :
  (length data < 18)%nat -> Decode data = None.
Proof.
  intros Hl. destruct (Decode data) as [q|] eqn:Hd; [|done].
  apply Decode_length in Hd. pose proof (length_Encode q). lia.
Qed.

Lemma Decode_rejects_short_witness :
  Decode (repeat 0 17) = None.
Proof. apply Decode_rejects_short. simpl. lia. Defined.




(* ------------------------------------------------------------------ *)
(** ** Messages on the wire *)



(** [ByteArraysEqual] is equality of byte slices. *)
Theorem ByteArraysEqual_spec (a b : list Z) :
  ByteArraysEqual a b = bool_decide (a = b).
Proof.
  unfold ByteArraysEqual. case_decide as Hl.
  - symmetry. apply bool_decide_eq_false_2. intros ->. done.
  - assert (Hl' : length a = length b) by lia. clear Hl.
    destruct (forallb _ _) eqn:Hf.
    + symmetry. apply bool_decide_eq_true_2.
      rewrite forallb_forall in Hf.
      apply (nth_ext a b 0 0); [exact Hl'|]. intros n Hn.
      specialize (Hf n). rewrite bool_decide_eq_true in Hf. apply Hf, in_seq. lia.
    + symmetry. apply bool_decide_eq_false_2. intros ->.
      rewrite <- not_true_iff_false, forallb_forall in Hf. apply Hf.
      intros i _. by apply bool_decide_eq_true_2.
Qed.


(* ------------------------------------------------------------------ *)
(** ** [ExpiringSet] *)

Lemma cleanup_fold_keep (now : Z) (k : string) (l : list (string * Z)) (acc : gmap string Z) :
  (forall kv, kv ∈ l -> kv.1 = k -> ~ kv.2 < now) ->
  foldl (fun m kv => if decide (kv.2 < now) then delete kv.1 m else m) acc l !! k = acc !! k.
Proof.
  revert acc; induction l as [|kv l IH]; intros acc Hl; [done|]. simpl.
  rewrite IH by (intros; apply Hl; [by right|done]).
  case_decide; [|done]. rewrite lookup_delete_ne; [done|].
  intros Heq. apply (Hl kv); [apply elem_of_cons; by left|done|done].
Qed.

Lemma cleanup_fold_drop (now : Z) (k : string) (l : list (string * Z)) (acc : gmap string Z) :
  (exists kv, kv ∈ l /\ kv.1 = k /\ kv.2 < now) ->
  foldl (fun m kv => if decide (kv.2 < now) then delete kv.1 m else m) acc l !! k = None.
Proof.
  revert acc; induction l as [|kv l IH]; intros acc (kv' & Hin & Hk & Hlt).
  - by apply elem_of_nil in Hin.
  - simpl. apply elem_of_cons in Hin as [->|Hin].
    + destruct (decide (Exists (fun kv => kv.1 = k /\ kv.2 < now) l)) as [Hex|Hno].
      * apply IH. apply Exists_exists in Hex as (kv2 & ? & ?). by exists kv2.
      * rewrite cleanup_fold_keep.
        -- rewrite decide_True by done. subst k. apply lookup_delete_eq.
        -- intros kv2 Hkv Hk' Hlt'. apply Hno, Exists_exists. by exists kv2.
    + apply IH. by exists kv'.
Qed.

Lemma lookup_ExpiringSet_cleanup (now : Z) (items : gmap string Z) (k : string) :
  ExpiringSet_cleanup now items !! k =
  match items !! k with
  | Some e => if decide (e < now) then None else Some e
  | None => None
  end.
Proof.
  unfold ExpiringSet_cleanup. destruct (items !! k) as [e|] eqn:He.
  - case_decide.
    + apply cleanup_fold_drop. exists (k, e). by rewrite elem_of_map_to_list.
    + rewrite cleanup_fold_keep; [done|]. intros [k' e'] Hin Hk. simpl in *. subst k'.
      rewrite elem_of_map_to_list in Hin. congruence.
  - rewrite cleanup_fold_keep; [done|]. intros [k' e'] Hin Hk. simpl in *. subst k'.
    rewrite elem_of_map_to_list in Hin. congruence.
Qed.

Lemma elem_of_ExpiringSet_GetAll (now : Z) (items : gmap string Z) (k : string) :
  k ∈ ExpiringSet_GetAll now items <-> exists e, items !! k = Some e /\ now < e.
Proof.
  unfold ExpiringSet_GetAll. rewrite list_elem_of_fmap. split.
  - intros ([k' e] & -> & Hin). apply list_elem_of_filter in Hin as [Hlt Hin].
    rewrite elem_of_map_to_list in Hin. by exists e.
  - intros (e & He & Hlt). exists (k, e). split; [done|].
    apply list_elem_of_filter. split; [done|]. by rewrite elem_of_map_to_list.
Qed.

Lemma NoDup_ExpiringSet_GetAll (now : Z) (items : gmap string Z) :
  NoDup (ExpiringSet_GetAll now items).
Proof.
  unfold ExpiringSet_GetAll. apply NoDup_fmap_fst.
  - intros x y1 y2 H1 H2. apply list_elem_of_filter in H1 as [_ H1], H2 as [_ H2].
    rewrite elem_of_map_to_list in H1, H2. congruence.
  - apply NoDup_filter, NoDup_map_to_list.
Qed.

Lemma ExpiringSet_Size_GetAll (now : Z) (items : gmap string Z) :
  ExpiringSet_Size now items = length (ExpiringSet_GetAll now items).
Proof. unfold ExpiringSet_Size, ExpiringSet_GetAll. by rewrite length_fmap. Qed.

(** [cleanup] at instant [now] changes nothing a later (or simultaneous)
    [Contains], [Size], [GetAll] or [Add] can observe: it only removes
    items that are already expired. *)
Theorem ExpiringSet_cleanup_unobservable (now t ttl : Z) (items : gmap string Z) (k : string) :
  now <= t ->
  ExpiringSet_Contains t k (ExpiringSet_cleanup now items) = ExpiringSet_Contains t k items /\
  ExpiringSet_Size t (ExpiringSet_cleanup now items) = ExpiringSet_Size t items /\
  ExpiringSet_GetAll t (ExpiringSet_cleanup now items) ≡ₚ ExpiringSet_GetAll t items /\
  (ExpiringSet_AddResult ttl t k (ExpiringSet_cleanup now items)).1 =
    (ExpiringSet_AddResult ttl t k items).1.
Proof.
  intros Ht.
  assert (Hperm : ExpiringSet_GetAll t (ExpiringSet_cleanup now items) ≡ₚ
                  ExpiringSet_GetAll t items).
  { apply NoDup_Permutation; [apply NoDup_ExpiringSet_GetAll..|].
    intros x. rewrite !elem_of_ExpiringSet_GetAll, lookup_ExpiringSet_cleanup.
    split.
    - intros (e & He & Hlt). destruct (items !! x) as [e'|]; [|done].
      case_decide; [done|]. injection He as ->. by exists e.
    - intros (e & He & Hlt). exists e. rewrite He. rewrite decide_False by lia. done. }
  split; [|split; [|split]].
  - unfold ExpiringSet_Contains. rewrite lookup_ExpiringSet_cleanup.
    destruct (items !! k) as [e|]; [|done]. case_decide; [|done].
    symmetry. apply bool_decide_eq_false_2. lia.
  - rewrite !ExpiringSet_Size_GetAll. by apply Permutation_length.
  - exact Hperm.
  - unfold ExpiringSet_AddResult. rewrite lookup_ExpiringSet_cleanup.
    destruct (items !! k) as [e|]; [|done].
    destruct (decide (e < now)); simpl.
    + rewrite decide_False by lia. done.
    + by destruct (decide (t < e)).
Qed.

(** [Add] returns [true] exactly when the item is not contained at [now],
    whatever the [ttl]; afterwards the item is contained when the [ttl] is
    positive, and every other item is untouched. *)
Theorem ExpiringSet_Add_spec (ttl now : Z) (items : gmap string Z) (k j : string) :
  (ExpiringSet_AddResult ttl now k items).1 = negb (ExpiringSet_Contains now k items) /\
  (0 < ttl -> ExpiringSet_Contains now k (ExpiringSet_AddResult ttl now k items).2 = true) /\
  (j <> k -> (ExpiringSet_AddResult ttl now k items).2 !! j = items !! j).
Proof.
  unfold ExpiringSet_AddResult, ExpiringSet_Contains.
  destruct (items !! k) as [e|] eqn:He; [destruct (decide (now < e))|]; simpl.
  - rewrite He, !bool_decide_eq_true_2 by done. done.
  - rewrite lookup_insert_eq, bool_decide_eq_false_2 by lia.
    split; [done|split].
    + intros Httl. rewrite bool_decide_eq_true_2 by lia. done.
    + intros. by rewrite lookup_insert_ne.
  - rewrite lookup_insert_eq.
    split; [done|split].
    + intros Httl. rewrite bool_decide_eq_true_2 by lia. done.
    + intros. by rewrite lookup_insert_ne.
Qed.

Lemma ExpiringSet_cleanup_unobservable_witness :
  ExpiringSet_Contains 4 "a" (ExpiringSet_cleanup 3 (<["a" := 5]> (<["b" := 1]> ∅))) = ExpiringSet_Contains 4 "a" (<["a" := 5]> (<["b" := 1]> ∅)) /\
  ExpiringSet_Size 4 (ExpiringSet_cleanup 3 (<["a" := 5]> (<["b" := 1]> ∅))) = ExpiringSet_Size 4 (<["a" := 5]> (<["b" := 1]> ∅)) /\
  ExpiringSet_GetAll 4 (ExpiringSet_cleanup 3 (<["a" := 5]> (<["b" := 1]> ∅))) ≡ₚ ExpiringSet_GetAll 4 (<["a" := 5]> (<["b" := 1]> ∅)) /\
  (ExpiringSet_AddResult Minute 4 "a" (ExpiringSet_cleanup 3 (<["a" := 5]> (<["b" := 1]> ∅)))).1 =
    (ExpiringSet_AddResult Minute 4 "a" (<["a" := 5]> (<["b" := 1]> ∅))).1.
Proof. apply (ExpiringSet_cleanup_unobservable 3 4 Minute (<["a" := 5]> (<["b" := 1]> ∅)) "a"). lia. Defined.




(* ------------------------------------------------------------------ *)
(** ** [MessageRouter] *)

Lemma ShouldProcess_window (now t : Z) (p q : BitchatPacket) (mr : MessageRouter) :
  TTL p <> 0 -> TTL q <> 0 -> ID q = ID p ->
  ExpiringSet_Contains now (ID p) (processedMessages mr) = false ->
  now <= t ->
  (ShouldProcess now p mr).1 = true /\
  (ShouldProcess t q (ShouldProcess now p mr).2).1 = bool_decide (now + processedTTL mr <= t).
Proof.
  intros Hp Hq Hid Hc Ht. unfold ShouldProcess.
  rewrite !decide_False by done.
  assert (Hadd : ExpiringSet_AddResult (processedTTL mr) now (ID p) (processedMessages mr) =
                 (true, <[ID p := now + processedTTL mr]> (processedMessages mr))).
  { unfold ExpiringSet_AddResult. unfold ExpiringSet_Contains in Hc.
    destruct (processedMessages mr !! ID p) as [e|]; [|done].
    rewrite decide_False; [done|]. intros Hlt. by rewrite bool_decide_eq_true_2 in Hc. }
  rewrite Hadd. simpl. split; [done|].
  unfold ExpiringSet_AddResult. rewrite Hid. simpl. rewrite lookup_insert_eq.
  destruct (decide (t < now + processedTTL mr)); simpl.
  - symmetry. apply bool_decide_eq_false_2. lia.
  - symmetry. apply bool_decide_eq_true_2. lia.
Qed.

(** A packet that [ShouldProcess] accepts at [now] makes every packet with
    the same [ID] a duplicate until [now] plus the set's TTL, and
    acceptable again from then on. *)
Theorem ShouldProcess_dedup_window (now t : Z) (p q : BitchatPacket) (mr : MessageRouter) :
  TTL p <> 0 -> TTL q <> 0 -> ID q = ID p ->
  ExpiringSet_Contains now (ID p) (processedMessages mr) = false ->
  now <= t ->
  (ShouldProcess now p mr).1 = true /\
  (ShouldProcess t q (ShouldProcess now p mr).2).1 = bool_decide (now + processedTTL mr <= t).
Proof. apply ShouldProcess_window. Qed.

Lemma ShouldProcess_dedup_window_witness :
  (ShouldProcess 0 chat_packet NewMessageRouter).1 = true /\
  (ShouldProcess Minute chat_packet (ShouldProcess 0 chat_packet NewMessageRouter).2).1 =
    bool_decide (0 + processedTTL NewMessageRouter <= Minute).
Proof.
  apply ShouldProcess_dedup_window.
  - simpl. lia.
  - simpl. lia.
  - reflexivity.
  - reflexivity.
  - unfold Minute, Second. lia.
Defined.

(** The dedup key [packet.ID] is not on the wire: every packet [Decode]
    returns has the empty id, so once [ShouldProcess] accepts one decoded
    packet, every other decoded packet (with a non-zero TTL) is rejected
    as a duplicate until the set's TTL has passed. *)
Theorem ShouldProcess_decoded_collide (now t : Z) (d1 d2 : list Z) (p q : BitchatPacket)
    (mr : MessageRouter) :
  Decode d1 = Some p -> Decode d2 = Some q ->
  TTL p <> 0 -> TTL q <> 0 ->
  ExpiringSet_Contains now "" (processedMessages mr) = false ->
  now <= t < now + processedTTL mr ->
  (ShouldProcess now p mr).1 = true /\
  (ShouldProcess t q (ShouldProcess now p mr).2).1 = false.
Proof.
  intros H1 H2 Hp Hq Hc Ht.
  apply Decode_Some_inv in H1 as (_ & _ & _ & _ & _ & _ & _ & _ & _ & _ & _ & _ & _ & _ & Hid1 & _).
  apply Decode_Some_inv in H2 as (_ & _ & _ & _ & _ & _ & _ & _ & _ & _ & _ & _ & _ & _ & Hid2 & _).
  destruct (ShouldProcess_window now t p q mr) as [Ha Hb]; try done.
  - congruence.
  - by rewrite Hid1.
  - lia.
  - split; [done|]. rewrite Hb. apply bool_decide_eq_false_2. lia.
Qed.

Lemma ShouldProcess_decoded_collide_witness :
  (ShouldProcess 0 chat_packet NewMessageRouter).1 = true /\
  (ShouldProcess Second (mkPacket 1 4 [9] [] 5 [1] [] 3 "" [])
     (ShouldProcess 0 chat_packet NewMessageRouter).2).1 = false.
Proof.
  apply (ShouldProcess_decoded_collide 0 Second (Encode chat_packet)
           (Encode (mkPacket 1 4 [9] [] 5 [1] [] 3 "" []))).
  - vm_compute. reflexivity.
  - vm_compute. reflexivity.
  - simpl. lia.
  - simpl. lia.
  - reflexivity.
  - simpl. unfold Minute, Second. lia.
Defined.

(** A packet relayed along a chain of [n] peers that each call
    [DecreaseAndCheckTTL] is relayed [min n (TTL - 1)] times: a packet
    with TTL [t] makes at most [t - 1] hops and never leaves a relay with
    TTL [0]. *)
Theorem relay_hops_TTL (n : nat) (p : BitchatPacket) :
  relay_hops n p = Nat.min n (Z.to_nat (TTL p - 1)).
Proof.
  revert p; induction n as [|n IH]; intros p; [done|].
  cbn [relay_hops]. unfold DecreaseAndCheckTTL. case_decide.
  - lia.
  - rewrite IH. simpl TTL. lia.
Qed.

Lemma update_below (d : string) (ups : list (string * Z)) (mx : Z) (mr : MessageRouter) :
  Forall (fun u => u.2 < mx) ups ->
  (forall c, routingMetrics mr !! d = Some c -> c < mx) ->
  forall c, routingMetrics (foldl (fun mr u => UpdateRoutingInfo d u.1 u.2 mr) mr ups) !! d
            = Some c -> c < mx.
Proof.
  revert mr; induction ups as [|u ups IH]; intros mr Hall Hm; [done|].
  apply Forall_cons in Hall as [Hu Hall]. simpl. apply IH; [done|].
  intros c. unfold UpdateRoutingInfo.
  destruct (routingMetrics mr !! d) as [c0|] eqn:Hc0; [case_decide|];
    simpl; rewrite ?lookup_insert_eq; try (intros [= <-]; lia).
  intros Hc. rewrite Hc0 in Hc. injection Hc as <-. by apply Hm.
Qed.

Lemma update_keeps_best (d : string) (ups : list (string * Z)) (mx : Z) (h : string)
    (mr : MessageRouter) :
  Forall (fun u => u.2 <= mx) ups ->
  routingMetrics mr !! d = Some mx -> routingTable mr !! d = Some h ->
  let mr' := foldl (fun mr u => UpdateRoutingInfo d u.1 u.2 mr) mr ups in
  routingMetrics mr' !! d = Some mx /\ routingTable mr' !! d = Some h.
Proof.
  revert mr; induction ups as [|u ups IH]; intros mr Hall Hm Ht; [done|].
  apply Forall_cons in Hall as [Hu Hall]. simpl. apply IH; [done|..];
    unfold UpdateRoutingInfo; rewrite Hm, decide_False by lia; done.
Qed.

(** Feeding [UpdateRoutingInfo] a sequence of routes to [d], starting
    with no route to it, keeps the route of the first update with the
    highest metric (an empty next hop meaning [d] itself) and that
    metric: later routes with an equal metric do not replace it. *)
Theorem UpdateRoutingInfo_best_route (d : string) (pre post : list (string * Z))
    (h : string) (mx : Z) (mr : MessageRouter) :
  routingMetrics mr !! d = None ->
  Forall (fun u => u.2 < mx) pre -> Forall (fun u => u.2 <= mx) post ->
  let mr' := foldl (fun mr u => UpdateRoutingInfo d u.1 u.2 mr) mr (pre ++ (h, mx) :: post) in
  GetNextHop d mr' = (if decide (h = "") then d else h, true) /\
  routingMetrics mr' !! d = Some mx.
Proof.
  intros Hnone Hpre Hpost. simpl. rewrite foldl_app. simpl.
  set (mr1 := foldl _ mr pre).
  assert (Hb : forall c, routingMetrics mr1 !! d = Some c -> c < mx).
  { apply update_below; [done|]. by rewrite Hnone. }
  destruct (update_keeps_best d post mx (if decide (h = "") then d else h)
              (UpdateRoutingInfo d h mx mr1)) as [Hm Ht]; [done|..].
  - unfold UpdateRoutingInfo. destruct (routingMetrics mr1 !! d) as [c|] eqn:Hc.
    + rewrite decide_True by (specialize (Hb c eq_refl); lia). simpl. apply lookup_insert_eq.
    + simpl. apply lookup_insert_eq.
  - unfold UpdateRoutingInfo. destruct (routingMetrics mr1 !! d) as [c|] eqn:Hc.
    + rewrite decide_True by (specialize (Hb c eq_refl); lia). simpl. apply lookup_insert_eq.
    + simpl. apply lookup_insert_eq.
  - unfold GetNextHop. by rewrite Ht, Hm.
Qed.

Lemma UpdateRoutingInfo_best_route_witness :
  let mr' := foldl (fun mr u => UpdateRoutingInfo "peer2" u.1 u.2 mr) NewMessageRouter
               ([("peer1", 70)] ++ ("peer3", 90) :: [("peer1", 90); ("", 50)]) in
  GetNextHop "peer2" mr' = (if decide ("peer3" = "") then "peer2" else "peer3", true) /\
  routingMetrics mr' !! "peer2" = Some 90.
Proof.
  apply UpdateRoutingInfo_best_route.
  - reflexivity.
  - repeat constructor; simpl; lia.
  - repeat constructor; simpl; lia.
Defined.


Lemma RemovePeer_fold_keep (x k : string) (l : list (string * string))
    (t : gmap string string) (m : gmap string Z) :
  (forall kv, kv ∈ l -> kv.1 = k -> kv.2 <> x) ->
  let r := foldl (fun '(t, m) (kv : string * string) =>
                    if decide (kv.2 = x) then (delete kv.1 t, delete kv.1 m) else (t, m))
             (t, m) l in
  r.1 !! k = t !! k /\ r.2 !! k = m !! k.
Proof.
  revert t m; induction l as [|kv l IH]; intros t m Hl; simpl; [done|].
  case_decide as Hx.
  - destruct (IH (delete kv.1 t) (delete kv.1 m)) as [-> ->].
    { intros kv' ?. apply Hl. by apply elem_of_cons; right. }
    assert (kv.1 <> k) by (intros <-; apply (Hl kv); [apply elem_of_cons; by left|done|done]).
    rewrite !lookup_delete_ne by done. done.
  - apply IH. intros kv' ?. apply Hl. by apply elem_of_cons; right.
Qed.

Lemma RemovePeer_fold_drop (x k : string) (l : list (string * string))
    (t : gmap string string) (m : gmap string Z) :
  (exists kv, kv ∈ l /\ kv.1 = k /\ kv.2 = x) ->
  let r := foldl (fun '(t, m) (kv : string * string) =>
                    if decide (kv.2 = x) then (delete kv.1 t, delete kv.1 m) else (t, m))
             (t, m) l in
  r.1 !! k = None /\ r.2 !! k = None.
Proof.
  revert t m; induction l as [|kv l IH]; intros t m (kv' & Hin & Hk & Hx); simpl.
  - by apply elem_of_nil in Hin.
  - apply elem_of_cons in Hin as [<-|Hin].
    + rewrite decide_True by done.
      destruct (decide (Exists (fun kv => kv.1 = k /\ kv.2 = x) l)) as [Hex|Hno].
      * apply IH. apply Exists_exists in Hex as (kv2 & ? & ?). by exists kv2.
      * destruct (RemovePeer_fold_keep x k l (delete kv'.1 t) (delete kv'.1 m)) as [-> ->].
        -- intros kv2 Hkv2 Hk2 Hx2. apply Hno, Exists_exists. by exists kv2.
        -- subst k. by rewrite !lookup_delete_eq.
    + case_decide; apply IH; by exists kv'.
Qed.

(** After [RemovePeer x] no route leads to or through [x]: its own entries
    are gone, and so is every route whose next hop was [x], metric
    included; every other route is kept with its metric, including a
    route whose next hop is a destination that was just removed. *)
Theorem RemovePeer_spec (x : string) (mr : MessageRouter) :
  let mr' := RemovePeer x mr in
  routingTable mr' !! x = None /\ routingMetrics mr' !! x = None /\
  (forall d h, routingTable mr' !! d = Some h -> h <> x) /\
  (forall d, routingTable mr !! d = Some x -> routingMetrics mr' !! d = None) /\
  (forall d h, d <> x -> routingTable mr !! d = Some h -> h <> x ->
     routingTable mr' !! d = Some h /\ routingMetrics mr' !! d = routingMetrics mr !! d).
Proof.
  unfold RemovePeer. cbv zeta.
  set (t1 := delete x (routingTable mr)). set (m1 := delete x (routingMetrics mr)).
  destruct (foldl _ (t1, m1) (map_to_list t1)) as [t2 m2] eqn:Hr.
  assert (Hlook : forall k,
    (t2 !! k = None /\ m2 !! k = None /\ (exists h, t1 !! k = Some h /\ h = x)) \/
    (t2 !! k = t1 !! k /\ m2 !! k = m1 !! k /\ forall h, t1 !! k = Some h -> h <> x)).
  { intros k. destruct (t1 !! k) as [h|] eqn:Hk; [destruct (decide (h = x)) as [->|Hne]|].
    - left. pose proof (RemovePeer_fold_drop x k (map_to_list t1) t1 m1) as Hd.
      cbv zeta in Hd. rewrite Hr in Hd. simpl in Hd. destruct Hd as [-> ->]; [|by eauto].
      exists (k, x). by rewrite elem_of_map_to_list.
    - right. pose proof (RemovePeer_fold_keep x k (map_to_list t1) t1 m1) as Hd.
      cbv zeta in Hd. rewrite Hr in Hd. simpl in Hd. destruct Hd as [-> ->].
      + intros [k' h'] Hin Hk'. simpl in *. subst k'.
        rewrite elem_of_map_to_list in Hin. congruence.
      + split; [done|split; [done|]]. intros h' [= <-]. done.
    - right. pose proof (RemovePeer_fold_keep x k (map_to_list t1) t1 m1) as Hd.
      cbv zeta in Hd. rewrite Hr in Hd. simpl in Hd. destruct Hd as [-> ->].
      + intros [k' h'] Hin Hk'. simpl in *. subst k'.
        rewrite elem_of_map_to_list in Hin. congruence.
      + split; [done|split; [done|]]. intros h' [=]. }
  simpl. split; [|split; [|split; [|split]]].
  - destruct (Hlook x) as [(-> & _)|(-> & _)]; [done|]. apply lookup_delete_eq.
  - destruct (Hlook x) as [(_ & -> & _)|(_ & -> & _)]; [done|]. apply lookup_delete_eq.
  - intros d h Hd. destruct (Hlook d) as [(Ht & _)|(Ht & _ & Hh)]; [congruence|].
    apply Hh. by rewrite <- Ht.
  - intros d Hd. destruct (decide (d = x)) as [->|Hne].
    + destruct (Hlook x) as [(_ & -> & _)|(_ & -> & _)]; [done|]. apply lookup_delete_eq.
    + destruct (Hlook d) as [(_ & -> & _)|(_ & _ & Hh)]; [done|].
      exfalso. apply (Hh x); [|done]. unfold t1. by rewrite lookup_delete_ne by congruence.
  - intros d h Hne Hd Hh. destruct (Hlook d) as [(_ & _ & h' & Ht1 & ->)|(-> & -> & _)].
    + unfold t1 in Ht1. rewrite lookup_delete_ne in Ht1 by congruence. congruence.
    + unfold t1, m1. by rewrite !lookup_delete_ne by congruence.
Qed.

(* ------------------------------------------------------------------ *)
(** ** Blocked peers of [Router] *)

Lemma lookup_blocked_map (l : list string) (p : string) :
  (list_to_map (map (fun id => (id, true)) l) : gmap string bool) !! p =
  if bool_decide (p ∈ l) then Some true else None.
Proof.
  induction l as [|a l IH]; simpl.
  - by rewrite lookup_empty.
  - destruct (decide (a = p)) as [->|Hne].
    + rewrite lookup_insert_eq. rewrite bool_decide_eq_true_2; [done|]. by left.
    + rewrite lookup_insert_ne by done. rewrite IH.
      destruct (bool_decide_reflect (p ∈ l)) as [Hp|Hp].
      * rewrite bool_decide_eq_true_2; [done|]. by right.
      * rewrite bool_decide_eq_false_2; [done|]. rewrite elem_of_cons. intros [->|?]; done.
Qed.

Lemma isBlocked_block_step (r : Router) (op : BlockOp) (p : string) :
  isBlocked (block_step r op) p = default (isBlocked r p) (block_op_decides p op).
Proof.
  destruct op as [id|id|cfg]; unfold isBlocked; simpl.
  - destruct (decide (id = p)) as [->|Hne]; simpl.
    + by rewrite lookup_insert_eq.
    + by rewrite lookup_insert_ne.
  - destruct (decide (id = p)) as [->|Hne]; simpl.
    + by rewrite lookup_delete_eq.
    + by rewrite lookup_delete_ne.
  - rewrite lookup_blocked_map. by case_bool_decide.
Qed.

(** The [Router]'s blocked peers after a sequence of calls from
    [NewRouter cfg]: the last call that concerns a peer decides whether it
    is blocked ([UpdateConfig] concerns every peer); with no such call,
    [cfg.BlockedPeers] does.  In particular [UnblockPeer] unblocks a peer
    listed in the configuration, and [UpdateConfig] discards every earlier
    [BlockPeer] and [UnblockPeer]. *)
Theorem isBlocked_last_call (cfg : RoutingConfig) (ops : list BlockOp) (p : string) :
  isBlocked (foldl block_step (NewRouter cfg) ops) p =
  foldl (fun b op => default b (block_op_decides p op)) (bool_decide (p ∈ BlockedPeers cfg)) ops.
Proof.
  assert (Hgen : forall r b, isBlocked r p = b ->
    isBlocked (foldl block_step r ops) p =
    foldl (fun b op => default b (block_op_decides p op)) b ops).
  { induction ops as [|op ops IH]; intros r b Hb; simpl; [done|].
    apply IH. rewrite isBlocked_block_step. by rewrite Hb. }
  apply Hgen. unfold isBlocked, NewRouter; simpl.
  rewrite lookup_blocked_map. by case_bool_decide.
Qed.

(* ------------------------------------------------------------------ *)
(** ** Message cache, peers by nickname, retries *)





(** [findPeerIDByNickname] returns the key of a peer with that name
    whenever there is one, and [""] when there is none. *)
Theorem findPeerIDByNickname_spec (nickname : string) (s : MeshState) :
  ((exists k p, peers s !! k = Some p /\ Name p = nickname) ->
   exists p, peers s !! findPeerIDByNickname nickname s = Some p /\ Name p = nickname) /\
  ((forall k p, peers s !! k = Some p -> Name p <> nickname) ->
   findPeerIDByNickname nickname s = "").
Proof.
  unfold findPeerIDByNickname. split.
  - intros (k & p & Hk & Hn).
    destruct (list_find _ _) as [[i [id p']]|] eqn:Hf.
    + apply list_find_Some in Hf as (Hi & Hp' & _). simpl in Hp'.
      apply list_elem_of_lookup_2 in Hi. rewrite elem_of_map_to_list in Hi. eauto.
    + apply list_find_None in Hf. rewrite Forall_forall in Hf.
      exfalso. apply (Hf (k, p)); [|done]. by rewrite elem_of_map_to_list.
  - intros Hnone.
    destruct (list_find _ _) as [[i [id p']]|] eqn:Hf; [|done].
    apply list_find_Some in Hf as (Hi & Hp' & _). simpl in Hp'.
    apply list_elem_of_lookup_2 in Hi. rewrite elem_of_map_to_list in Hi.
    exfalso. by apply (Hnone id p').
Qed.

(** A packet added for retry and then marked delivered leaves the pending
    items as they were before the add, with one call of its callback,
    reporting success after one attempt. *)
Theorem MarkDelivered_AddRetryPacket (cfg : RetryConfig) (now : Z) (packet : BitchatPacket)
    (targetPeerID : string) (onComplete : option nat) (items : RetryItems) :
  items !! ID packet = None ->
  MarkDelivered (ID packet) (AddRetryPacket cfg now packet targetPeerID onComplete items) =
  (items, match onComplete with
          | Some cb => [Completed cb (ID packet) true 1]
          | None => []
          end).
Proof.
  intros Hnone. unfold AddRetryPacket, MarkDelivered. rewrite Hnone, lookup_insert_eq.
  unfold callback_event; simpl. by rewrite delete_insert_id.
Qed.

Lemma MarkDelivered_AddRetryPacket_witness :
  MarkDelivered (ID chat_packet)
    (AddRetryPacket DefaultRetryConfig 0 chat_packet "bob" (Some 3%nat) ∅) =
  (∅, [Completed 3 (ID chat_packet) true 1]).
Proof. apply (MarkDelivered_AddRetryPacket DefaultRetryConfig 0 chat_packet "bob" (Some 3%nat) ∅). reflexivity. Defined.

(* ------------------------------------------------------------------ *)
(** ** Blocked peers listed *)

Lemma block_step_all_true (r : Router) (op : BlockOp) :
  map_Forall (fun _ v => v = true) (blockedPeersMap r) ->
  map_Forall (fun _ v => v = true) (blockedPeersMap (block_step r op)).
Proof.
  intros Hr. destruct op as [id|id|cfg]; simpl.
  - by apply map_Forall_insert_2.
  - by apply map_Forall_delete.
  - intros k v Hk. rewrite lookup_blocked_map in Hk. by case_bool_decide; simplify_eq.
Qed.

(** [GetBlockedPeers] lists each blocked peer once and nothing else: the
    map only ever holds [true], so its keys are the blocked peers. *)
Theorem GetBlockedPeers_exact (cfg : RoutingConfig) (ops : list BlockOp) :
  let r := foldl block_step (NewRouter cfg) ops in
  NoDup (GetBlockedPeers r) /\
  forall p, p ∈ GetBlockedPeers r <-> isBlocked r p = true.
Proof.
  intros r.
  assert (Hall : map_Forall (fun _ v => v = true) (blockedPeersMap r)).
  { subst r. assert (H0 : map_Forall (fun _ v => v = true) (blockedPeersMap (NewRouter cfg))).
    { intros k v Hk. simpl in Hk. rewrite lookup_blocked_map in Hk.
      by case_bool_decide; simplify_eq. }
    revert H0. generalize (NewRouter cfg). induction ops as [|op ops IH]; intros r0 H0; simpl.
    - done.
    - apply IH. by apply block_step_all_true. }
  unfold GetBlockedPeers, isBlocked. split; [apply NoDup_fst_map_to_list|].
  intros p. rewrite list_elem_of_fmap. split.
  - intros ([k v] & -> & Hin). rewrite elem_of_map_to_list in Hin. simpl.
    rewrite Hin. simpl. by apply (Hall k v).
  - destruct (blockedPeersMap r !! p) as [v|] eqn:Hp; simpl; [|discriminate].
    intros ->. exists (p, true). split; [done|]. by rewrite elem_of_map_to_list.
Qed.

(* ------------------------------------------------------------------ *)
(** ** [MessageStore] *)

Section MessageStoreProofs.
Variable WriteFileOK : string -> string -> bool.

Lemma StorePeerMessage_step (peerID : string) (m : Message.t) (ms : MessageStore) :
  peerID <> "" -> 0 <= MaxMessagesPerPeer (ms_config ms) ->
  Z.of_nat (length (default [] (peerMessages ms !! peerID))) <= MaxMessagesPerPeer (ms_config ms) ->
  WriteFileOK (StoreDir (ms_config ms)) ("peer_" +:+ peerID +:+ ".json") = true ->
  (StorePeerMessage WriteFileOK peerID m ms).1 = StoreOk /\
  peerMessages (StorePeerMessage WriteFileOK peerID m ms).2 !! peerID =
    Some (drop (length (default [] (peerMessages ms !! peerID) ++ [m])
                - Z.to_nat (MaxMessagesPerPeer (ms_config ms)))
            (default [] (peerMessages ms !! peerID) ++ [m])) /\
  (0 < MaxMessagesPerPeer (ms_config ms) ->
   peerFiles (StorePeerMessage WriteFileOK peerID m ms).2 !! peerID =
    Some (drop (length (default [] (peerMessages ms !! peerID) ++ [m])
                - Z.to_nat (MaxMessagesPerPeer (ms_config ms)))
            (default [] (peerMessages ms !! peerID) ++ [m]))) /\
  ms_config (StorePeerMessage WriteFileOK peerID m ms).2 = ms_config ms.
Proof.
  intros Hp HM Hl HW. unfold StorePeerMessage. rewrite decide_False by done.
  remember (default [] (peerMessages ms !! peerID)) as l eqn:Hleq.
  remember (MaxMessagesPerPeer (ms_config ms)) as M eqn:HMeq.
  assert (Hkeep : keep_newest M (l ++ [m]) =
                  Some (drop (length (l ++ [m]) - Z.to_nat M) (l ++ [m]))).
  { unfold keep_newest. rewrite length_app in *. simpl in *.
    destruct (decide (M < Z.of_nat (length l + 1))).
    - rewrite decide_False by lia. done.
    - replace (length l + 1 - Z.to_nat M)%nat with 0%nat by lia. done. }
  rewrite Hkeep. unfold persistPeerMessages. simpl. rewrite lookup_insert_eq. simpl.
  destruct (decide (length (drop (length (l ++ [m]) - Z.to_nat M) (l ++ [m])) = 0%nat))
    as [H0|H0]; simpl.
  - split; [done|]. split; [by rewrite lookup_insert_eq|]. split; [|done].
    intros HMpos. exfalso. rewrite length_drop, length_app in H0. simpl in H0. lia.
  - rewrite HW. simpl.
    split; [done|]. split; [by rewrite lookup_insert_eq|]. split; [|done].
    intros _. by rewrite lookup_insert_eq.
Qed.

(** Storing messages one after the other for a peer whose file can be
    written keeps the newest [MaxMessagesPerPeer] of them, oldest first,
    and every call succeeds; when [MaxMessagesPerPeer] is positive the
    peer's file holds the same list. *)
Theorem store_peer_all_keeps_newest (peerID : string) (msgs : list Message.t)
    (ms : MessageStore) :
  peerID <> "" -> 0 <= MaxMessagesPerPeer (ms_config ms) ->
  Z.of_nat (length (default [] (peerMessages ms !! peerID))) <= MaxMessagesPerPeer (ms_config ms) ->
  WriteFileOK (StoreDir (ms_config ms)) ("peer_" +:+ peerID +:+ ".json") = true ->
  let all := default [] (peerMessages ms !! peerID) ++ msgs in
  let kept := drop (length all - Z.to_nat (MaxMessagesPerPeer (ms_config ms))) all in
  (store_peer_all WriteFileOK peerID msgs ms).1 = repeat StoreOk (length msgs) /\
  GetPeerMessages peerID (store_peer_all WriteFileOK peerID msgs ms).2 = inl kept /\
  (msgs <> [] -> 0 < MaxMessagesPerPeer (ms_config ms) ->
   peerFiles (store_peer_all WriteFileOK peerID msgs ms).2 !! peerID = Some kept).
Proof.
  intros Hp. revert ms. induction msgs as [|m msgs IH]; intros ms HM Hl HW all kept.
  - subst all kept. simpl. unfold GetPeerMessages. rewrite decide_False by done.
    rewrite app_nil_r. split; [done|]. split; [|done].
    replace (length (default [] (peerMessages ms !! peerID)) -
             Z.to_nat (MaxMessagesPerPeer (ms_config ms)))%nat with 0%nat by lia.
    done.
  - destruct (StorePeerMessage_step peerID m ms Hp HM Hl HW) as (Hr & Hl1 & Hf1 & Hc1).
    simpl. destruct (StorePeerMessage WriteFileOK peerID m ms) as [r ms1] eqn:Hs.
    simpl in Hr, Hl1, Hf1, Hc1.
    specialize (IH ms1). rewrite Hc1, Hl1 in IH. simpl in IH.
    set (M := MaxMessagesPerPeer (ms_config ms)) in *.
    set (l := default [] (peerMessages ms !! peerID)) in *.
    assert (Hlen1 : Z.of_nat (length (drop (length (l ++ [m]) - Z.to_nat M) (l ++ [m]))) <= M).
    { rewrite length_drop, length_app. simpl. lia. }
    specialize (IH HM Hlen1 HW).
    destruct (store_peer_all WriteFileOK peerID msgs ms1) as [rs ms2] eqn:Hall. simpl in *.
    assert (Hdrop : drop (length (drop (length (l ++ [m]) - Z.to_nat M) (l ++ [m]) ++ msgs)
                           - Z.to_nat M)
                      (drop (length (l ++ [m]) - Z.to_nat M) (l ++ [m]) ++ msgs) = kept).
    { subst kept all. rewrite <- drop_app_le by lia. rewrite drop_drop.
      rewrite !length_app, length_drop, !length_app. simpl.
      f_equal; [lia|]. by rewrite <- app_assoc. }
    rewrite Hdrop in IH. destruct IH as (Hrs & Hget & Hfile).
    split; [by rewrite Hr, Hrs|]. split; [done|].
    intros _ HMpos. destruct msgs as [|m' msgs'].
    + simpl in Hall. injection Hall as <- <-. rewrite Hf1 by done.
      by subst kept all.
    + apply Hfile; [done|exact HMpos].
Qed.








End MessageStoreProofs.

Lemma store_peer_all_keeps_newest_witness :
  (store_peer_all (fun _ _ => true) "alice"
     [sample_message 1; sample_message 2; sample_message 3] sample_store).1 =
    [StoreOk; StoreOk; StoreOk] /\
  GetPeerMessages "alice"
    (store_peer_all (fun _ _ => true) "alice"
       [sample_message 1; sample_message 2; sample_message 3] sample_store).2 =
    inl [sample_message 2; sample_message 3] /\
  peerFiles (store_peer_all (fun _ _ => true) "alice"
               [sample_message 1; sample_message 2; sample_message 3] sample_store).2
    !! "alice" = Some [sample_message 2; sample_message 3].
Proof.
  destruct (store_peer_all_keeps_newest (fun _ _ => true) "alice"
              [sample_message 1; sample_message 2; sample_message 3] sample_store)
    as (H1 & H2 & H3);
    [congruence|vm_compute; congruence|vm_compute; congruence|reflexivity|].
  split; [rewrite H1; reflexivity|]. split.
  - rewrite H2. reflexivity.
  - rewrite H3; [reflexivity|congruence|vm_compute; reflexivity].
Defined.

